(** * delete_old_backups.py: a shallow embedding and its properties

    The script walks a directory tree, collects the [.bak] files with their
    creation times, selects those older than a threshold, removes them (or
    only says so in a dry run) and logs a report.

    Conventions of the embedding.
    - A path is the list of its components below the file-system root, so
      [os.path.join(root, file)] is [root ++ [file]].
    - The file system is a tree of nodes.  A directory lists its entries in
      the order [os.scandir] yields them.  Symbolic links, search permission
      and concurrent modification by other processes are outside the model.
    - A [datetime] is a number of microseconds; the tree stores for every
      node the value [datetime.fromtimestamp(os.path.getctime(p))] evaluates
      to, and the world holds the value [datetime.now()] returns.
    - The logging module appends records to a list.  A record keeps the
      level and the arguments of its format string; the rendering of the
      text ([asctime], the [:.2f] of the size line) is not modelled.
    - Every function of the script lives in a state-and-exception monad over
      the world: a raised exception keeps the effects performed before it. *)

From Stdlib Require Import List ZArith Lia Bool String Permutation.
Import ListNotations.
Local Open Scope Z_scope.

Set Implicit Arguments.

(** ** File system *)

Definition name := string.
Definition path := list name.
Definition datetime := Z.

Record stat := { st_size : Z; st_ctime : datetime }.

#[warnings="-register-all"]
Inductive node :=
| File (st : stat)
| Dir (st : stat) (readable writable : bool) (entries : list (name * node)).

Inductive errno := ENOENT | ENOTDIR | EACCES | EISDIR.

(** Python raises the subclass of [OSError] that belongs to the errno
    ([FileNotFoundError], [NotADirectoryError], [PermissionError],
    [IsADirectoryError]); [ValueError] is what [min] and [max] raise on an
    empty iterable. *)
Inductive exn :=
| OSError (e : errno) (p : path)
| ValueError.

Definition is_OSError (e : exn) : bool :=
  match e with OSError _ _ => true | ValueError => false end.

Definition node_stat (n : node) : stat :=
  match n with File st => st | Dir st _ _ _ => st end.

Definition is_dir (n : node) : bool :=
  match n with File _ => false | Dir _ _ _ _ => true end.

Fixpoint lookup_entry (nm : name) (es : list (name * node)) : option node :=
  match es with
  | [] => None
  | (nm', ch) :: es' => if String.eqb nm nm' then Some ch else lookup_entry nm es'
  end.

Fixpoint remove_entry (nm : name) (es : list (name * node)) : list (name * node) :=
  match es with
  | [] => []
  | (nm', ch) :: es' =>
      if String.eqb nm nm' then es' else (nm', ch) :: remove_entry nm es'
  end.

Fixpoint update_entry (nm : name) (new : node) (es : list (name * node))
  : list (name * node) :=
  match es with
  | [] => []
  | (nm', ch) :: es' =>
      if String.eqb nm nm' then (nm', new) :: es'
      else (nm', ch) :: update_entry nm new es'
  end.

(** Path resolution from a node. *)
Fixpoint resolve (n : node) (p : path) : errno + node :=
  match p with
  | [] => inr n
  | c :: p' =>
      match n with
      | File _ => inl ENOTDIR
      | Dir _ _ _ es =>
          match lookup_entry c es with
          | None => inl ENOENT
          | Some ch => resolve ch p'
          end
      end
  end.

(** [unlink(2)]: the entry must exist, its directory must be writable and it
    must not be a directory. *)
Fixpoint unlink (n : node) (p : path) : errno + node :=
  match p with
  | [] => inl EISDIR
  | c :: p' =>
      match n with
      | File _ => inl ENOTDIR
      | Dir st r w es =>
          match lookup_entry c es with
          | None => inl ENOENT
          | Some ch =>
              match p' with
              | [] =>
                  if negb w then inl EACCES
                  else if is_dir ch then inl EISDIR
                  else inr (Dir st r w (remove_entry c es))
              | _ :: _ =>
                  match unlink ch p' with
                  | inl e => inl e
                  | inr ch' => inr (Dir st r w (update_entry c ch' es))
                  end
              end
          end
      end
  end.

Definition dirnames (es : list (name * node)) : list name :=
  map fst (filter (fun e => is_dir (snd e)) es).

Definition filenames (es : list (name * node)) : list name :=
  map fst (filter (fun e => negb (is_dir (snd e))) es).

(** [os.walk(top)], top-down, with the default [onerror=None]: a directory
    that cannot be scanned yields nothing. *)
Fixpoint walk (top : path) (n : node) : list (path * list name * list name) :=
  match n with
  | File _ => []
  | Dir _ r _ es =>
      if r then
        (top, dirnames es, filenames es)
          :: (fix sub (l : list (name * node)) :=
                match l with
                | [] => []
                | (nm, ch) :: l' =>
                    (if is_dir ch then walk (top ++ [nm]) ch else []) ++ sub l'
                end) es
      else []
  end.

(** The triples [os.walk] yields from a root: none when the root cannot be
    resolved. *)
Definition walked (n : node) (top : path) : list (path * list name * list name) :=
  match resolve n top with
  | inr m => walk top m
  | inl _ => []
  end.

(** ** Log records *)

Inductive level := INFO | ERROR.

Inductive message :=
| Starting (backup_dir : path)
| AgeThreshold (days : Z)
| DryRun (b : bool)
| TotalFound (n : nat)
| Identified (n : nat)
| WouldDelete (file_path : path)
| Deleted (file_path : path)
| ErrorDeleting (file_path : path) (e : exn)
| ReportHeader
| NumDeleted (n : nat)
| TotalSize (bytes : Z)
| NumRemaining (n : nat)
| OldestRemaining (t : datetime)
| NewestRemaining (t : datetime)
| Completed.

Definition record := (level * message)%type.

(** ** The world and the monad *)

Record world := { fs : node; clock : datetime; log : list record }.

Inductive result (A : Type) :=
| Ok (a : A)
| Raise (e : exn).
Arguments Ok {A} a.
Arguments Raise {A} e.

Definition M (A : Type) := world -> result A * world.

Definition ret {A} (a : A) : M A := fun w => (Ok a, w).

Definition bind {A B} (m : M A) (f : A -> M B) : M B :=
  fun w => match m w with
           | (Ok a, w') => f a w'
           | (Raise e, w') => (Raise e, w')
           end.

Definition raise {A} (e : exn) : M A := fun w => (Raise e, w).

Declare Scope py_scope.
Delimit Scope py_scope with py.
Notation "x <- m ;; k" := (bind m (fun x => k))
  (at level 100, m at next level, right associativity) : py_scope.
Notation "m ;; k" := (bind m (fun _ => k))
  (at level 100, right associativity) : py_scope.
Local Open Scope py_scope.

(** [try: body except OSError as e: handler e]. *)
Definition try_except_OSError (body : M unit) (handler : exn -> M unit) : M unit :=
  fun w => match body w with
           | (Ok a, w') => (Ok a, w')
           | (Raise e, w') => if is_OSError e then handler e w' else (Raise e, w')
           end.

(** [for x in l: body x]. *)
Fixpoint for_each {A} (l : list A) (body : A -> M unit) : M unit :=
  match l with
  | [] => ret tt
  | x :: l' => body x ;; for_each l' body
  end.

(** A loop that appends what each iteration produces to one list. *)
Fixpoint collect {A B} (l : list A) (body : A -> M (list B)) : M (list B) :=
  match l with
  | [] => ret []
  | x :: l' => ys <- body x ;; zs <- collect l' body ;; ret (ys ++ zs)
  end.

(** [sum(f(x) for x in l)]. *)
Fixpoint sum_of {A} (f : A -> M Z) (l : list A) (acc : Z) : M Z :=
  match l with
  | [] => ret acc
  | x :: l' => v <- f x ;; sum_of f l' (acc + v)
  end.

(** ** Library calls *)

Definition add_log (w : world) (l : list record) : world :=
  {| fs := fs w; clock := clock w; log := log w ++ l |}.

Definition logging_info (m : message) : M unit :=
  fun w => (Ok tt, add_log w [(INFO, m)]).

Definition logging_error (m : message) : M unit :=
  fun w => (Ok tt, add_log w [(ERROR, m)]).

Definition datetime_now : M datetime := fun w => (Ok (clock w), w).

Definition os_stat (p : path) : M stat :=
  fun w => match resolve (fs w) p with
           | inr n => (Ok (node_stat n), w)
           | inl e => (Raise (OSError e p), w)
           end.

Definition getsize (p : path) : M Z := st <- os_stat p ;; ret (st_size st).
Definition getctime (p : path) : M datetime := st <- os_stat p ;; ret (st_ctime st).

Definition os_remove (p : path) : M unit :=
  fun w => match unlink (fs w) p with
           | inr n' => (Ok tt, {| fs := n'; clock := clock w; log := log w |})
           | inl e => (Raise (OSError e p), w)
           end.

Definition os_walk (top : path) : M (list (path * list name * list name)) :=
  fun w => (Ok (walked (fs w) top), w).

(** [s.endswith(suffix)]. *)
Definition endswith (s suffix : string) : bool :=
  let n := String.length s in
  let m := String.length suffix in
  (m <=? n)%nat && String.eqb (substring (n - m) m s) suffix.

Definition usec_per_day : Z := 86400000000.

(** [timedelta.days] of a difference given in microseconds: a timedelta is
    normalised with a non-negative remainder, so the days are the floor. *)
Definition days (delta : Z) : Z := delta / usec_per_day.

(** [min] and [max] over an iterable of datetimes. *)
Definition py_min (l : list datetime) : M datetime :=
  match l with
  | [] => raise ValueError
  | x :: l' => ret (fold_left Z.min l' x)
  end.

Definition py_max (l : list datetime) : M datetime :=
  match l with
  | [] => raise ValueError
  | x :: l' => ret (fold_left Z.max l' x)
  end.

Definition path_eqb (p q : path) : bool :=
  if list_eq_dec string_dec p q then true else false.

(** [p in l] on a list of paths. *)
Definition path_in (p : path) (l : list path) : bool := existsb (path_eqb p) l.

(** ** The script *)

Definition get_backup_files (backup_dir : path) : M (list (path * datetime)) :=
  triples <- os_walk backup_dir ;;
  collect triples (fun '(root, _, files) =>
    collect files (fun file =>
      if endswith file ".bak" then
        let file_path := root ++ [file] in
        creation_time <- getctime file_path ;;
        ret [(file_path, creation_time)]
      else ret [])).

Definition is_old (current_time : datetime) (age_threshold : Z)
  (b : path * datetime) : bool :=
  age_threshold <? days (current_time - snd b).

Definition identify_old_backups (backup_files : list (path * datetime))
  (age_threshold : Z) : M (list path) :=
  current_time <- datetime_now ;;
  ret (map fst (filter (is_old current_time age_threshold) backup_files)).

Definition delete_backups (backups_to_delete : list path) (dry_run : bool) : M unit :=
  for_each backups_to_delete (fun file_path =>
    if dry_run then logging_info (WouldDelete file_path)
    else
      try_except_OSError
        (os_remove file_path ;; logging_info (Deleted file_path))
        (fun e => logging_error (ErrorDeleting file_path e))).

Definition generate_report (deleted_backups : list path)
  (remaining_backups : list (path * datetime)) : M unit :=
  logging_info ReportHeader ;;
  logging_info (NumDeleted (List.length deleted_backups)) ;;
  total <- sum_of getsize deleted_backups 0 ;;
  logging_info (TotalSize total) ;;
  logging_info (NumRemaining (List.length remaining_backups)) ;;
  oldest <- py_min (map snd remaining_backups) ;;
  logging_info (OldestRemaining oldest) ;;
  newest <- py_max (map snd remaining_backups) ;;
  logging_info (NewestRemaining newest).

(** [[b for b in all_backups if b[0] not in old_backups]]. *)
Definition remaining_of (all_backups : list (path * datetime))
  (old_backups : list path) : list (path * datetime) :=
  filter (fun b => negb (path_in (fst b) old_backups)) all_backups.

Definition main (backup_dir : path) (age_threshold : Z) (dry_run : bool) : M unit :=
  logging_info (Starting backup_dir) ;;
  logging_info (AgeThreshold age_threshold) ;;
  logging_info (DryRun dry_run) ;;
  all_backups <- get_backup_files backup_dir ;;
  logging_info (TotalFound (List.length all_backups)) ;;
  old_backups <- identify_old_backups all_backups age_threshold ;;
  logging_info (Identified (List.length old_backups)) ;;
  delete_backups old_backups dry_run ;;
  let remaining_backups := remaining_of all_backups old_backups in
  generate_report old_backups remaining_backups ;;
  logging_info Completed.

(** ** A sample tree

    [/srv/backups] holds three backups aged 10, 40 and 400 days and a text
    file; [/srv/locked] is a directory that cannot be written and holds one
    old backup; [/srv/stale] holds only an old backup. *)

Definition day (d : Z) : datetime := d * usec_per_day.
Definition sample_now : datetime := day 20000.

Definition bak (size age : Z) : node :=
  File {| st_size := size; st_ctime := sample_now - day age |}.

Definition dstat : stat := {| st_size := 4096; st_ctime := 0 |}.

Definition sample_fs : node :=
  Dir dstat true true
    [("srv"%string,
      Dir dstat true true
        [("backups"%string,
          Dir dstat true true
            [("a.bak"%string, bak 100 10);
             ("b.bak"%string, bak 200 40);
             ("c.bak"%string, bak 300 400);
             ("notes.txt"%string, bak 50 400)]);
         ("locked"%string,
          Dir dstat true false
            [("old.bak"%string, bak 700 90);
             ("new.bak"%string, bak 900 1)]);
         ("stale"%string,
          Dir dstat true true [("z.bak"%string, bak 5242880 40)]);
         ("readme"%string, bak 10 3)])].

Definition sample_world : world :=
  {| fs := sample_fs; clock := sample_now; log := [] |}.

Definition backups_dir : path := ["srv"; "backups"]%string.
Definition locked_dir : path := ["srv"; "locked"]%string.
Definition stale_dir : path := ["srv"; "stale"]%string.

Definition missing_dir : path := ["srv"; "nothere"]%string.
Definition readme_file : path := ["srv"; "readme"]%string.

(** ** Vocabulary of the statements *)

(** [os.path.isdir]. *)
Definition isdir (n : node) (p : path) : bool :=
  match resolve n p with
  | inr ch => is_dir ch
  | inl _ => false
  end.

(** Every directory of a tree names each of its entries once. *)
Inductive wf : node -> Prop :=
| wf_File st : wf (File st)
| wf_Dir st r w es :
    NoDup (map fst es) ->
    (forall nm ch, In (nm, ch) es -> wf ch) ->
    wf (Dir st r w es).

(** The size a path has on disk, 0 where it cannot be probed. *)
Definition disk_size (n : node) (p : path) : Z :=
  match resolve n p with
  | inr ch => st_size (node_stat ch)
  | inl _ => 0
  end.

Definition total_size (n : node) (l : list path) : Z :=
  fold_right Z.add 0 (map (disk_size n) l).

(** The tree left by removing the paths of a list one after the other, each
    attempt made on what the earlier ones left, a failed one changing
    nothing. *)
Fixpoint remove_all (n : node) (l : list path) : node :=
  match l with
  | [] => n
  | p :: l' =>
      match unlink n p with
      | inr n' => remove_all n' l'
      | inl _ => remove_all n l'
      end
  end.

(** The records those attempts leave in the log. *)
Fixpoint removal_lines (n : node) (l : list path) : list record :=
  match l with
  | [] => []
  | p :: l' =>
      match unlink n p with
      | inr n' => (INFO, Deleted p) :: removal_lines n' l'
      | inl e => (ERROR, ErrorDeleting p (OSError e p)) :: removal_lines n l'
      end
  end.

(** The record the executor writes for one path. *)
Definition outcome_line (dry_run : bool) (p : path) (r : record) : Prop :=
  if dry_run then r = (INFO, WouldDelete p)
  else r = (INFO, Deleted p) \/ exists e, r = (ERROR, ErrorDeleting p (OSError e p)).

(** The path a record of the executor is about. *)
Definition record_path (r : record) : option path :=
  match snd r with
  | WouldDelete p | Deleted p | ErrorDeleting p _ => Some p
  | _ => None
  end.


(** What discovery returns for one triple of the walk. *)
Definition backups_of (n : node) (t : path * list name * list name)
  : list (path * datetime) :=
  flat_map (fun file =>
    if endswith file ".bak" then
      [(fst (fst t) ++ [file],
        match resolve n (fst (fst t) ++ [file]) with
        | inr ch => st_ctime (node_stat ch)
        | inl _ => 0
        end)]
    else []) (snd t).

(** What the size probes of the report evaluate to on a tree: the running
    sum, or the error of the first path that cannot be probed. *)
Fixpoint probe_sizes (n : node) (l : list path) (acc : Z) : result Z :=
  match l with
  | [] => Ok acc
  | p :: l' =>
      match resolve n p with
      | inr ch => probe_sizes n l' (acc + st_size (node_stat ch))
      | inl e => Raise (OSError e p)
      end
  end.

(** A computation that only reads the tree: it leaves the world as it is and
    its result depends on the tree alone. *)
Definition fs_reader {A} (m : M A) : Prop :=
  forall w,
    snd (m w) = w /\ forall w', fs w' = fs w -> fst (m w') = fst (m w).

(** The three records [main] starts with. *)
Definition startup_lines (dir : path) (thr : Z) (dry_run : bool) : list record :=
  [(INFO, Starting dir); (INFO, AgeThreshold thr); (INFO, DryRun dry_run)].

(** What discovery returns from a root, on a well-formed tree. *)
Definition discovered (n : node) (dir : path) : list (path * datetime) :=
  flat_map (backups_of n) (walked n dir).

(** The paths the filter selects. *)
Definition old_paths (now : datetime) (thr : Z) (files : list (path * datetime))
  : list path :=
  map fst (filter (is_old now thr) files).


(** Every directory met from a node along a relative path, the node and the
    end of the path included, is a directory that can be scanned. *)
Fixpoint scannable (n : node) (rel : path) : bool :=
  match rel with
  | [] =>
      match n with
      | Dir _ r _ _ => r
      | File _ => false
      end
  | c :: rel' =>
      match n with
      | Dir _ r _ es =>
          r && match lookup_entry c es with
               | Some ch => scannable ch rel'
               | None => false
               end
      | File _ => false
      end
  end.

(** A record that reports a failed removal. *)
Definition is_error_line (r : record) : bool :=
  match r with
  | (ERROR, ErrorDeleting _ _) => true
  | _ => false
  end.

(** [os.path.isfile]. *)
Definition isfile (n : node) (p : path) : bool :=
  match resolve n p with
  | inr (File _) => true
  | _ => false
  end.

(** A path resolves to a directory that can be written. *)
Definition writable_dir (n : node) (p : path) : bool :=
  match resolve n p with
  | inr (Dir _ _ w _) => w
  | _ => false
  end.

(** A path resolves to a directory that can be scanned. *)
Definition readable_dir (n : node) (p : path) : bool :=
  match resolve n p with
  | inr (Dir _ r _ _) => r
  | _ => false
  end.

(** * Properties *)

(** ** Suffixes *)

Lemma substring_all (t : string) : substring 0 (String.length t) t = t.
Proof. induction t as [|a t IH]; simpl; [reflexivity | now rewrite IH]. Qed.

Lemma substring_append_tail (s t : string) :
  substring (String.length s) (String.length t) (String.append s t) = t.
Proof. induction s as [|a s IH]; simpl; [apply substring_all | exact IH]. Qed.

Lemma length_append (s t : string) :
  String.length (String.append s t) = (String.length s + String.length t)%nat.
Proof. induction s as [|a s IH]; simpl; [reflexivity | now rewrite IH]. Qed.

Lemma substring_split (s : string) :
  forall k, (k <= String.length s)%nat ->
  s = String.append (substring 0 k s) (substring k (String.length s - k) s).
Proof.
  induction s as [|a s IH]; intros k Hk; simpl in *.
  - destruct k; reflexivity.
  - destruct k as [|k]; simpl.
    + now rewrite substring_all.
    + f_equal. apply IH. lia.
Qed.

(** [endswith] holds exactly of the strings that are some prefix followed by
    the suffix. *)
Lemma endswith_iff (s suffix : string) :
  endswith s suffix = true <-> exists prefix, s = String.append prefix suffix.
Proof.
  unfold endswith. rewrite andb_true_iff, Nat.leb_le, String.eqb_eq. split.
  - intros [Hle Hsub].
    exists (substring 0 (String.length s - String.length suffix) s).
    assert (Hk : (String.length s - String.length suffix <= String.length s)%nat)
      by lia.
    pose proof (@substring_split s _ Hk) as H.
    replace (String.length s - (String.length s - String.length suffix))%nat
      with (String.length suffix) in H by lia.
    now rewrite Hsub in H.
  - intros [prefix ->]. rewrite length_append. split; [lia|].
    replace (String.length prefix + String.length suffix - String.length suffix)%nat
      with (String.length prefix) by lia.
    apply substring_append_tail.
Qed.

(** ** The monad and the log *)

Lemma add_log_nil (w : world) : add_log w [] = w.
Proof. destruct w; unfold add_log; simpl; now rewrite app_nil_r. Qed.

Lemma add_log_app (w : world) (l1 l2 : list record) :
  add_log (add_log w l1) l2 = add_log w (l1 ++ l2).
Proof. unfold add_log; simpl; now rewrite app_assoc. Qed.

Lemma bind_Ok {A B} (m : M A) (f : A -> M B) w a w' :
  m w = (Ok a, w') -> bind m f w = f a w'.
Proof. intros H; unfold bind; now rewrite H. Qed.

Lemma bind_info {B} (msg : message) (f : unit -> M B) w :
  bind (logging_info msg) f w = f tt (add_log w [(INFO, msg)]).
Proof. reflexivity. Qed.

(** ** The executor *)

Lemma for_each_cons {A} (x : A) l (body : A -> M unit) w :
  for_each (x :: l) body w =
  match body x w with
  | (Ok _, w') => for_each l body w'
  | (Raise e, w') => (Raise e, w')
  end.
Proof. reflexivity. Qed.

Lemma delete_backups_dry (l : list path) (w : world) :
  delete_backups l true w
  = (Ok tt, add_log w (map (fun p => (INFO, WouldDelete p)) l)).
Proof.
  unfold delete_backups. revert w.
  induction l as [|p l IH]; intros w.
  - simpl. unfold ret. now rewrite add_log_nil.
  - rewrite for_each_cons. unfold logging_info at 1.
    rewrite IH, add_log_app. reflexivity.
Qed.

(** One step of the loop body outside a dry run. *)
Lemma remove_step (p : path) (w : world) :
  try_except_OSError
    (os_remove p ;; logging_info (Deleted p))
    (fun e => logging_error (ErrorDeleting p e)) w
  = match unlink (fs w) p with
    | inr n' =>
        (Ok tt, {| fs := n'; clock := clock w; log := log w ++ [(INFO, Deleted p)] |})
    | inl e =>
        (Ok tt, add_log w [(ERROR, ErrorDeleting p (OSError e p))])
    end.
Proof.
  unfold try_except_OSError, bind, os_remove.
  destruct (unlink (fs w) p) as [e|n']; reflexivity.
Qed.

Lemma delete_backups_wet (l : list path) (w : world) :
  delete_backups l false w
  = (Ok tt, {| fs := remove_all (fs w) l;
               clock := clock w;
               log := log w ++ removal_lines (fs w) l |}).
Proof.
  unfold delete_backups. revert w.
  induction l as [|p l IH]; intros w.
  - simpl. unfold ret. destruct w; simpl. now rewrite app_nil_r.
  - rewrite for_each_cons, remove_step. simpl.
    destruct (unlink (fs w) p) as [e|n'].
    + rewrite IH. simpl. now rewrite <- app_assoc.
    + rewrite IH. simpl. now rewrite <- app_assoc.
Qed.

Lemma removal_lines_outcome (l : list path) (n : node) :
  Forall2 (outcome_line false) l (removal_lines n l).
Proof.
  revert n. induction l as [|p l IH]; intros n; simpl.
  - constructor.
  - destruct (unlink n p) as [e|n']; constructor; auto.
    + right. now exists e.
    + now left.
Qed.

Lemma removal_lines_paths (l : list path) (n : node) :
  map record_path (removal_lines n l) = map Some l.
Proof.
  revert n. induction l as [|p l IH]; intros n; simpl; [reflexivity|].
  destruct (unlink n p) as [e|n']; simpl; now rewrite IH.
Qed.

Lemma dry_lines_outcome (l : list path) :
  Forall2 (outcome_line true) l (map (fun p => (INFO, WouldDelete p)) l).
Proof. induction l; simpl; constructor; auto. reflexivity. Qed.

(** The executor never raises, keeps the clock, and writes one record for
    each path of its input, in the order of the input. *)
Lemma delete_backups_lines (l : list path) (dry_run : bool) (w : world) :
  exists n' lines,
    delete_backups l dry_run w
    = (Ok tt, {| fs := n'; clock := clock w; log := log w ++ lines |})
    /\ Forall2 (outcome_line dry_run) l lines
    /\ map record_path lines = map Some l.
Proof.
  destruct dry_run.
  - exists (fs w), (map (fun p => (INFO, WouldDelete p)) l).
    rewrite delete_backups_dry. split; [reflexivity|].
    split; [apply dry_lines_outcome|].
    now rewrite map_map.
  - exists (remove_all (fs w) l), (removal_lines (fs w) l).
    rewrite delete_backups_wet. split; [reflexivity|].
    split; [apply removal_lines_outcome | apply removal_lines_paths].
Qed.

(** ** The reporter *)

Lemma sum_of_getsize (l : list path) (acc : Z) (w : world) :
  sum_of getsize l acc w = (probe_sizes (fs w) l acc, w).
Proof.
  revert acc. induction l as [|p l IH]; intros acc; simpl; [reflexivity|].
  unfold bind, getsize, bind, os_stat.
  destruct (resolve (fs w) p) as [e|ch]; simpl; [reflexivity|].
  apply IH.
Qed.

Lemma probe_sizes_Ok (n : node) (l : list path) (acc : Z) :
  Forall (fun p => exists ch, resolve n p = inr ch) l ->
  probe_sizes n l acc = Ok (acc + total_size n l).
Proof.
  revert acc. induction l as [|p l IH]; intros acc HF; simpl.
  - f_equal. unfold total_size. simpl. lia.
  - inversion HF as [|? ? [ch Hch] HF']; subst.
    rewrite Hch, IH by assumption.
    f_equal. unfold total_size, disk_size. simpl. rewrite Hch.
    fold (disk_size n). lia.
Qed.

Lemma probe_sizes_Ok_inv (n : node) (l : list path) (acc t : Z) :
  probe_sizes n l acc = Ok t ->
  t = acc + total_size n l
  /\ Forall (fun p => exists ch, resolve n p = inr ch) l.
Proof.
  revert acc. induction l as [|p l IH]; intros acc H; simpl in H.
  - inversion H; subst. split; [unfold total_size; simpl; lia | constructor].
  - destruct (resolve n p) as [e|ch] eqn:Hch; [discriminate|].
    apply IH in H. destruct H as [Ht HF]. split.
    + rewrite Ht. unfold total_size, disk_size. simpl. rewrite Hch.
      fold (disk_size n). lia.
    + constructor; [now exists ch | assumption].
Qed.

Lemma probe_sizes_Raise (n : node) (l : list path) (acc : Z) :
  Exists (fun p => exists e, resolve n p = inl e) l ->
  exists e q, In q l /\ resolve n q = inl e
              /\ probe_sizes n l acc = Raise (OSError e q).
Proof.
  revert acc. induction l as [|p l IH]; intros acc HE; simpl.
  - inversion HE.
  - destruct (resolve n p) as [e|ch] eqn:Hp.
    + exists e, p. auto.
    + inversion HE as [? ? [e He]|? ? HE']; subst; [congruence|].
      destruct (IH (acc + st_size (node_stat ch)) HE') as (e & q & Hin & Hq & Hr).
      exists e, q. auto.
Qed.

(** The report, case by case: the two first lines are always written; the
    size probes then raise or give the total; [min] raises on an empty
    remaining list. *)
Lemma generate_report_cases (deleted : list path)
  (remaining : list (path * datetime)) (w : world) :
  generate_report deleted remaining w =
  match probe_sizes (fs w) deleted 0 with
  | Raise e =>
      (Raise e,
       add_log w [(INFO, ReportHeader); (INFO, NumDeleted (List.length deleted))])
  | Ok total =>
      match map snd remaining with
      | [] =>
          (Raise ValueError,
           add_log w [(INFO, ReportHeader);
                      (INFO, NumDeleted (List.length deleted));
                      (INFO, TotalSize total);
                      (INFO, NumRemaining (List.length remaining))])
      | t :: ts =>
          (Ok tt,
           add_log w [(INFO, ReportHeader);
                      (INFO, NumDeleted (List.length deleted));
                      (INFO, TotalSize total);
                      (INFO, NumRemaining (List.length remaining));
                      (INFO, OldestRemaining (fold_left Z.min ts t));
                      (INFO, NewestRemaining (fold_left Z.max ts t))])
      end
  end.
Proof.
  unfold generate_report.
  rewrite !bind_info. unfold bind at 1. rewrite sum_of_getsize. simpl fs.
  destruct (probe_sizes (fs w) deleted 0) as [total|e].
  - rewrite !bind_info.
    destruct (map snd remaining) as [|t ts]; simpl.
    + unfold bind, py_min, raise. simpl. now rewrite !add_log_app.
    + unfold bind, py_min, py_max, ret, logging_info. simpl.
      now rewrite !add_log_app.
  - now rewrite add_log_app.
Qed.

(** ** Computations that only read the tree *)

Lemma fs_reader_run {A} (m : M A) (w : world) :
  fs_reader m -> m w = (fst (m w), w).
Proof.
  intros H. destruct (H w) as [Hs _].
  destruct (m w) as [r w0]; simpl in *. now subst.
Qed.

Lemma fs_reader_ret {A} (a : A) : fs_reader (ret a).
Proof. intros w; split; [reflexivity | intros; reflexivity]. Qed.

Lemma fs_reader_bind {A B} (m : M A) (f : A -> M B) :
  fs_reader m -> (forall a, fs_reader (f a)) -> fs_reader (bind m f).
Proof.
  intros Hm Hf w. unfold bind.
  rewrite (fs_reader_run w Hm).
  destruct (fst (m w)) as [a|e] eqn:Hr.
  - split; [apply Hf|].
    intros w' Hw'. rewrite (fs_reader_run w' Hm).
    destruct (Hm w) as [_ Hd]. rewrite (Hd w' Hw'), Hr.
    now apply Hf.
  - split; [reflexivity|].
    intros w' Hw'. rewrite (fs_reader_run w' Hm).
    destruct (Hm w) as [_ Hd]. now rewrite (Hd w' Hw'), Hr.
Qed.

Lemma fs_reader_os_stat (p : path) : fs_reader (os_stat p).
Proof.
  intros w; unfold os_stat; split.
  - now destruct (resolve (fs w) p).
  - intros w' ->. now destruct (resolve (fs w) p).
Qed.

Lemma fs_reader_getctime (p : path) : fs_reader (getctime p).
Proof.
  apply fs_reader_bind; [apply fs_reader_os_stat | intros; apply fs_reader_ret].
Qed.

Lemma fs_reader_os_walk (top : path) : fs_reader (os_walk top).
Proof.
  intros w; unfold os_walk; split; [reflexivity|].
  intros w' ->. reflexivity.
Qed.

Lemma fs_reader_collect {A B} (l : list A) (body : A -> M (list B)) :
  (forall x, fs_reader (body x)) -> fs_reader (collect l body).
Proof.
  intros Hb. induction l as [|x l IH]; simpl.
  - apply fs_reader_ret.
  - apply fs_reader_bind; [apply Hb|]. intros ys.
    apply fs_reader_bind; [apply IH|]. intros zs. apply fs_reader_ret.
Qed.

Lemma fs_reader_get_backup_files (dir : path) : fs_reader (get_backup_files dir).
Proof.
  unfold get_backup_files.
  apply fs_reader_bind; [apply fs_reader_os_walk|]. intros triples.
  apply fs_reader_collect. intros [[root ds] files].
  apply fs_reader_collect. intros file.
  destruct (endswith file ".bak").
  - apply fs_reader_bind; [apply fs_reader_getctime|].
    intros; apply fs_reader_ret.
  - apply fs_reader_ret.
Qed.

Lemma get_backup_files_add_log (dir : path) (w : world) (l : list record) :
  get_backup_files dir (add_log w l)
  = (fst (get_backup_files dir w), add_log w l).
Proof.
  rewrite (fs_reader_run (add_log w l) (fs_reader_get_backup_files dir)).
  f_equal. now apply (fs_reader_get_backup_files dir w).
Qed.

(** ** The pipeline *)

Lemma main_discovery_raises dir thr dry_run w e :
  fst (get_backup_files dir w) = Raise e ->
  main dir thr dry_run w = (Raise e, add_log w (startup_lines dir thr dry_run)).
Proof.
  intros H. unfold main. rewrite !bind_info, !add_log_app. simpl app.
  unfold bind at 1. rewrite get_backup_files_add_log, H. reflexivity.
Qed.

Lemma identify_old_backups_run (files : list (path * datetime)) (thr : Z) (w : world) :
  identify_old_backups files thr w = (Ok (old_paths (clock w) thr files), w).
Proof. reflexivity. Qed.

Lemma main_unfold dir thr dry_run w all :
  fst (get_backup_files dir w) = Ok all ->
  let old := old_paths (clock w) thr all in
  let w1 := add_log w (startup_lines dir thr dry_run
                       ++ [(INFO, TotalFound (List.length all));
                           (INFO, Identified (List.length old))]) in
  main dir thr dry_run w =
  match delete_backups old dry_run w1 with
  | (Ok _, w2) =>
      match generate_report old (remaining_of all old) w2 with
      | (Ok _, w3) => (Ok tt, add_log w3 [(INFO, Completed)])
      | (Raise e, w3) => (Raise e, w3)
      end
  | (Raise e, w2) => (Raise e, w2)
  end.
Proof.
  intros H old w1. unfold main. rewrite !bind_info, !add_log_app. simpl app.
  unfold bind at 1. rewrite get_backup_files_add_log, H.
  rewrite bind_info, add_log_app. simpl app.
  erewrite bind_Ok by apply identify_old_backups_run.
  simpl clock. fold old. rewrite bind_info, add_log_app. simpl app.
  change (add_log w _) with w1.
  unfold bind at 1.
  destruct (delete_backups old dry_run w1) as [[[]|e] w2]; [|reflexivity].
  unfold bind at 1.
  destruct (generate_report old (remaining_of all old) w2) as [[[]|e] w3];
    reflexivity.
Qed.

Lemma generate_report_fs deleted remaining w :
  fs (snd (generate_report deleted remaining w)) = fs w.
Proof.
  rewrite generate_report_cases.
  destruct (probe_sizes (fs w) deleted 0); [|reflexivity].
  destruct (map snd remaining); reflexivity.
Qed.

Lemma main_dry_fs dir thr w : fs (snd (main dir thr true w)) = fs w.
Proof.
  destruct (fst (get_backup_files dir w)) as [all|e] eqn:Hd.
  - rewrite (main_unfold dir thr true w Hd). cbv zeta.
    rewrite delete_backups_dry, add_log_app.
    match goal with
    | |- context [generate_report ?d ?r ?w2] =>
        pose proof (generate_report_fs d r w2) as Hg;
        destruct (generate_report d r w2) as [[[]|e] w3]
    end; simpl in *; assumption.
  - now rewrite (main_discovery_raises dir thr true w Hd).
Qed.

(** ** The filter *)

Lemma path_in_In (p : path) (l : list path) : path_in p l = true <-> In p l.
Proof.
  unfold path_in. rewrite existsb_exists. split.
  - intros (q & Hq & He). unfold path_eqb in He.
    destruct (list_eq_dec string_dec p q); [now subst | discriminate].
  - intros H. exists p. split; [assumption|].
    unfold path_eqb. now destruct (list_eq_dec string_dec p p).
Qed.

Lemma remaining_of_In (all : list (path * datetime)) (old : list path) b :
  In b (remaining_of all old) <-> In b all /\ ~ In (fst b) old.
Proof.
  unfold remaining_of. rewrite filter_In, negb_true_iff.
  rewrite <- path_in_In. now destruct (path_in (fst b) old).
Qed.

Lemma NoDup_map_fst_inj {A B} (l : list (A * B)) a b b' :
  NoDup (map fst l) -> In (a, b) l -> In (a, b') l -> b = b'.
Proof.
  induction l as [|[x y] l IH]; simpl; intros Hnd H1 H2; [contradiction|].
  inversion Hnd as [|? ? Hx Hnd']; subst.
  destruct H1 as [H1|H1], H2 as [H2|H2].
  - congruence.
  - inversion H1; subst. exfalso. apply Hx.
    change a with (fst (a, b')). now apply in_map.
  - inversion H2; subst. exfalso. apply Hx.
    change a with (fst (a, b)). now apply in_map.
  - now apply IH.
Qed.

Lemma old_paths_In (now : datetime) (thr : Z) (files : list (path * datetime)) p :
  In p (old_paths now thr files)
  <-> exists c, In (p, c) files /\ thr < days (now - c).
Proof.
  unfold old_paths. rewrite in_map_iff. split.
  - intros ([q c] & Hq & Hin). simpl in Hq. subst q.
    apply filter_In in Hin. destruct Hin as [Hin Ho].
    exists c. split; [assumption|]. unfold is_old in Ho. simpl in Ho. lia.
  - intros (c & Hin & Hlt). exists (p, c). split; [reflexivity|].
    apply filter_In. split; [assumption|]. unfold is_old. simpl. lia.
Qed.

Lemma days_exact (thr : Z) : days (thr * usec_per_day) = thr.
Proof. unfold days. apply Z.div_mul. unfold usec_per_day. lia. Qed.

Lemma get_backup_files_invalid_root (dir : path) (w : world) :
  isdir (fs w) dir = false -> get_backup_files dir w = (Ok [], w).
Proof.
  intros H. unfold get_backup_files, bind, os_walk, walked, isdir in *.
  destruct (resolve (fs w) dir) as [e|[st|st r wr es]]; try reflexivity.
  discriminate.
Qed.

(** ** Discovery on a well-formed tree *)

Lemma lookup_entry_In (es : list (name * node)) nm ch :
  NoDup (map fst es) -> In (nm, ch) es -> lookup_entry nm es = Some ch.
Proof.
  induction es as [|[nm' ch'] es IH]; simpl; intros Hnd Hin; [contradiction|].
  inversion Hnd as [|? ? Hx Hnd']; subst.
  destruct Hin as [Heq|Hin].
  - inversion Heq; subst. now rewrite String.eqb_refl.
  - destruct (String.eqb nm nm') eqn:E.
    + apply String.eqb_eq in E. subst nm'. exfalso. apply Hx.
      change nm with (fst (nm, ch)). now apply in_map.
    + now apply IH.
Qed.

Lemma lookup_entry_Some (es : list (name * node)) nm ch :
  lookup_entry nm es = Some ch -> In (nm, ch) es.
Proof.
  induction es as [|[nm' ch'] es IH]; simpl; [discriminate|].
  destruct (String.eqb nm nm') eqn:E.
  - apply String.eqb_eq in E. intros H; inversion H; subst. now left.
  - intros H. right. now apply IH.
Qed.

Lemma resolve_app (n : node) (p q : path) :
  resolve n (p ++ q)
  = match resolve n p with
    | inr m => resolve m q
    | inl e => inl e
    end.
Proof.
  revert n. induction p as [|c p IH]; intros n; simpl; [reflexivity|].
  destruct n as [st|st r w es]; [reflexivity|].
  destruct (lookup_entry c es); [apply IH | reflexivity].
Qed.

Lemma wf_resolve (n m : node) (p : path) :
  wf n -> resolve n p = inr m -> wf m.
Proof.
  revert n. induction p as [|c p IH]; intros n Hwf H; simpl in H.
  - inversion H; subst; assumption.
  - destruct n as [st|st r w es]; [discriminate|].
    destruct (lookup_entry c es) as [ch|] eqn:E; [|discriminate].
    apply lookup_entry_Some in E.
    inversion Hwf as [|? ? ? ? _ Hch]; subst. exact (IH ch (Hch c ch E) H).
Qed.

Lemma walk_Dir (top : path) st w es :
  walk top (Dir st true w es)
  = (top, dirnames es, filenames es)
      :: flat_map (fun e => if is_dir (snd e)
                            then walk (top ++ [fst e]) (snd e) else []) es.
Proof.
  simpl. f_equal.
  induction es as [|[nm ch] es IH]; simpl; [reflexivity|]. now rewrite IH.
Qed.

(** Every triple of the walk describes a directory of the tree. *)
Lemma walk_sound (n : node) :
  wf n ->
  forall top t, In t (walk top n) ->
  exists rel st r w es,
    fst (fst t) = top ++ rel
    /\ resolve n rel = inr (Dir st r w es)
    /\ NoDup (map fst es)
    /\ snd t = filenames es.
Proof.
  induction 1 as [st|st r w es Hnd Hch IH]; intros top t Hin.
  - contradiction.
  - destruct r; [|contradiction].
    rewrite walk_Dir in Hin. destruct Hin as [<-|Hin].
    + exists [], st, true, w, es. simpl. rewrite app_nil_r. auto.
    + apply in_flat_map in Hin. destruct Hin as ([nm ch] & He & Hin).
      simpl in Hin. destruct (is_dir ch); [|contradiction].
      destruct (IH nm ch He _ _ Hin) as (rel & st' & r' & w' & es' & Hr & Hres & Hnd' & Hf).
      exists (nm :: rel), st', r', w', es'.
      split; [now rewrite Hr, <- app_assoc|].
      split; [|auto]. simpl. now rewrite (@lookup_entry_In es nm ch Hnd He).
Qed.

Lemma filenames_lookup (es : list (name * node)) file :
  NoDup (map fst es) -> In file (filenames es) ->
  exists st, lookup_entry file es = Some (File st).
Proof.
  intros Hnd Hin. unfold filenames in Hin. apply in_map_iff in Hin.
  destruct Hin as ([nm ch] & Hnm & Hin). simpl in Hnm. subst nm.
  apply filter_In in Hin. destruct Hin as [Hin Hd]. simpl in Hd.
  destruct ch as [st|]; [|discriminate].
  exists st. now apply lookup_entry_In.
Qed.

Lemma NoDup_map_filter {A B} (f : A -> B) (g : A -> bool) (l : list A) :
  NoDup (map f l) -> NoDup (map f (filter g l)).
Proof.
  induction l as [|x l IH]; simpl; intros Hnd; [constructor|].
  inversion Hnd as [|? ? Hx Hnd']; subst.
  destruct (g x); simpl; [|now apply IH].
  constructor; [|now apply IH].
  intros Hin. apply Hx. apply in_map_iff in Hin. destruct Hin as (y & Hy & Hin).
  apply filter_In in Hin. rewrite <- Hy. apply in_map. tauto.
Qed.

Lemma collect_pure {A B} (g : A -> list B) (l : list A)
  (body : A -> M (list B)) (w : world) :
  (forall x, In x l -> body x w = (Ok (g x), w)) ->
  collect l body w = (Ok (flat_map g l), w).
Proof.
  induction l as [|x l IH]; intros H; simpl; [reflexivity|].
  unfold bind. rewrite (H x (or_introl eq_refl)).
  rewrite IH by (intros y Hy; apply H; now right). reflexivity.
Qed.

Section Keyed.

Variables (A B K : Type) (g : A -> list B) (kx : A -> K) (key : B -> K).

(** Lists whose elements carry the key of the item they come from do not
    overlap when the items have different keys. *)
Lemma NoDup_flat_map_keyed (l : list A) :
  NoDup (map kx l) ->
  (forall x, In x l -> NoDup (g x)) ->
  (forall x y, In x l -> In y (g x) -> key y = kx x) ->
  NoDup (flat_map g l).
Proof.
  induction l as [|a l IH]; simpl; intros Hnd Hg Hk; [constructor|].
  inversion Hnd as [|? ? Ha Hnd']; subst.
  apply NoDup_app.
  - apply Hg. now left.
  - apply IH; auto.
  - intros y Hy Hy'. apply in_flat_map in Hy'. destruct Hy' as (x & Hx & Hyx).
    apply Ha. rewrite <- (Hk a y (or_introl eq_refl) Hy).
    rewrite (Hk x y (or_intror Hx) Hyx). now apply in_map.
Qed.

End Keyed.

Lemma map_flat_map {A B C} (f : B -> C) (g : A -> list B) (l : list A) :
  map f (flat_map g l) = flat_map (fun x => map f (g x)) l.
Proof.
  induction l as [|x l IH]; simpl; [reflexivity|]. now rewrite map_app, IH.
Qed.

Lemma NoDup_map_injective {A B} (f : A -> B) (l : list A) :
  (forall x y, f x = f y -> x = y) -> NoDup l -> NoDup (map f l).
Proof.
  intros Hf. induction 1 as [|x l Hx Hnd IH]; simpl; constructor; [|assumption].
  intros Hin. apply in_map_iff in Hin. destruct Hin as (y & Hy & Hin).
  apply Hf in Hy. now subst.
Qed.

Lemma walk_roots_NoDup (n : node) :
  wf n -> forall top, NoDup (map (fun t => fst (fst t)) (walk top n)).
Proof.
  intros Hwf. pose proof Hwf as Hwf0.
  induction Hwf as [st|st r w es Hnd Hch IH]; intros top.
  - constructor.
  - destruct r; [|constructor]. rewrite walk_Dir. simpl map. constructor.
    + intros Hin. apply in_map_iff in Hin. destruct Hin as (t & Ht & Hin).
      apply in_flat_map in Hin. destruct Hin as ([nm ch] & He & Hin).
      simpl in Hin. destruct (is_dir ch); [|contradiction].
      destruct (walk_sound (Hch nm ch He) _ _ Hin) as (rel & _ & _ & _ & _ & Hr & _).
      rewrite Hr in Ht. apply (f_equal (@List.length _)) in Ht.
      rewrite !length_app in Ht. simpl in Ht. lia.
    + rewrite map_flat_map.
      apply (@NoDup_flat_map_keyed _ _ _ _ (fun e => Some (fst e))
               (fun p => nth_error p (List.length top))).
      * rewrite <- map_map. apply NoDup_map_injective; [|assumption].
        intros x y Hxy. now inversion Hxy.
      * intros [nm ch] He. simpl. destruct (is_dir ch); [|constructor].
        apply (IH nm ch He). exact (Hch nm ch He).
      * intros [nm ch] y He Hy. simpl in *.
        destruct (is_dir ch); [|contradiction].
        apply in_map_iff in Hy. destruct Hy as (t & <- & Hin).
        destruct (walk_sound (Hch nm ch He) _ _ Hin) as (rel & _ & _ & _ & _ & Hr & _).
        rewrite Hr, <- app_assoc. simpl.
        rewrite nth_error_app2 by lia. now rewrite Nat.sub_diag.
Qed.

Lemma walked_sound (n : node) (dir : path) t :
  wf n -> In t (walked n dir) ->
  exists es,
    NoDup (map fst es) /\ snd t = filenames es
    /\ forall file, In file (filenames es) ->
         exists st, resolve n (fst (fst t) ++ [file]) = inr (File st).
Proof.
  intros Hwf Hin. unfold walked in Hin.
  destruct (resolve n dir) as [e|m] eqn:Hm; [contradiction|].
  destruct (walk_sound (wf_resolve _ Hwf Hm) _ _ Hin)
    as (rel & st & r & w & es & Hr & Hres & Hnd & Hf).
  exists es. split; [assumption|]. split; [assumption|].
  intros file Hfile.
  destruct (@filenames_lookup es file Hnd Hfile) as [st' Hl].
  exists st'. rewrite Hr, !resolve_app, Hm, Hres. simpl. now rewrite Hl.
Qed.

(** On a well-formed tree discovery never raises and returns, triple by
    triple, the [.bak] names of each directory with their creation times. *)
Lemma get_backup_files_wf (dir : path) (w : world) :
  wf (fs w) ->
  get_backup_files dir w = (Ok (discovered (fs w) dir), w).
Proof.
  intros Hwf. unfold get_backup_files, discovered. unfold bind at 1, os_walk.
  apply collect_pure. intros [[root ds] fls] Hin.
  destruct (walked_sound _ _ Hwf Hin) as (es & _ & Hf & Hres).
  simpl in Hf, Hres. subst fls. unfold backups_of. simpl fst. simpl snd.
  apply collect_pure. intros file Hfile.
  destruct (endswith file ".bak"); [|reflexivity].
  destruct (Hres file Hfile) as [st Hst].
  unfold bind, getctime, bind, os_stat, name in *. now rewrite Hst.
Qed.

Lemma backups_of_paths (n : node) (t : path * list name * list name) :
  map fst (backups_of n t)
  = map (fun file => fst (fst t) ++ [file])
        (filter (fun file => endswith file ".bak") (snd t)).
Proof.
  unfold backups_of. induction (snd t) as [|file l IH]; simpl; [reflexivity|].
  destruct (endswith file ".bak"); simpl; now rewrite IH.
Qed.

Lemma discovered_NoDup (n : node) (dir : path) :
  wf n -> NoDup (map fst (discovered n dir)).
Proof.
  intros Hwf. unfold discovered. rewrite map_flat_map.
  apply (@NoDup_flat_map_keyed _ _ _ _ (fun t => fst (fst t)) (@removelast _)).
  - unfold walked. destruct (resolve n dir) as [e|m] eqn:Hm; [constructor|].
    apply walk_roots_NoDup. exact (wf_resolve _ Hwf Hm).
  - intros t Hin. rewrite backups_of_paths.
    destruct (walked_sound _ _ Hwf Hin) as (es & Hnd & Hf & _).
    apply NoDup_map_injective.
    + intros x y Hxy. apply app_inv_head in Hxy. now inversion Hxy.
    + apply NoDup_filter. rewrite Hf. unfold filenames.
      now apply NoDup_map_filter.
  - intros t y _ Hy. rewrite backups_of_paths in Hy.
    apply in_map_iff in Hy. destruct Hy as (file & <- & _).
    apply removelast_last.
Qed.

(** Every discovered path is a file of the tree. *)
Lemma discovered_exist (n : node) (dir : path) (p : path) (c : datetime) :
  wf n -> In (p, c) (discovered n dir) -> exists st, resolve n p = inr (File st).
Proof.
  intros Hwf Hin. unfold discovered in Hin. apply in_flat_map in Hin.
  destruct Hin as (t & Ht & Hin).
  destruct (walked_sound _ _ Hwf Ht) as (es & _ & Hf & Hres).
  unfold backups_of in Hin. apply in_flat_map in Hin.
  destruct Hin as (file & Hfile & Hin).
  destruct (endswith file ".bak"); [|contradiction].
  destruct Hin as [Hin|[]]. inversion Hin; subst.
  apply Hres. now rewrite <- Hf.
Qed.

Lemma filter_split_Permutation {A} (f : A -> bool) (l : list A) :
  Permutation l (filter f l ++ filter (fun x => negb (f x)) l).
Proof.
  induction l as [|x l IH]; simpl; [constructor|].
  destruct (f x); simpl.
  - now constructor.
  - now apply Permutation_cons_app.
Qed.

Lemma remaining_of_not_old (now : datetime) (thr : Z) (all : list (path * datetime)) :
  NoDup (map fst all) ->
  remaining_of all (old_paths now thr all)
  = filter (fun b => negb (is_old now thr b)) all.
Proof.
  intros Hnd. unfold remaining_of. apply filter_ext_in. intros [p c] Hin.
  f_equal. simpl fst.
  destruct (is_old now thr (p, c)) eqn:Ho.
  - apply path_in_In. apply old_paths_In. exists c. split; [assumption|].
    unfold is_old in Ho. simpl in Ho. lia.
  - destruct (path_in p _) eqn:Hp; [|reflexivity].
    apply path_in_In, old_paths_In in Hp. destruct Hp as (c' & Hin' & Hlt).
    rewrite (NoDup_map_fst_inj _ _ _ _ Hnd Hin Hin') in Ho.
    unfold is_old in Ho. simpl in Ho. lia.
Qed.

Ltac wf_tree :=
  first
    [ apply wf_File
    | apply wf_Dir;
      [ repeat constructor; simpl; intuition discriminate
      | let nm := fresh "nm" in
        let ch := fresh "ch" in
        let H := fresh "H" in
        intros nm ch H; simpl in H;
        repeat (destruct H as [H|H]; [inversion H; subst; wf_tree|]);
        contradiction ] ].

Lemma wf_sample_fs : wf sample_fs.
Proof. unfold sample_fs. wf_tree. Qed.

(** ** Removal on a well-formed tree *)

Lemma lookup_remove_entry_same (es : list (name * node)) c :
  NoDup (map fst es) -> lookup_entry c (remove_entry c es) = None.
Proof.
  induction es as [|[nm ch] es IH]; simpl; intros Hnd; [reflexivity|].
  inversion Hnd as [|? ? Hx Hnd']; subst.
  destruct (String.eqb c nm) eqn:E.
  - apply String.eqb_eq in E. subst nm.
    destruct (lookup_entry c es) as [ch'|] eqn:L; [|reflexivity].
    apply lookup_entry_Some in L. exfalso. apply Hx.
    change c with (fst (c, ch')). now apply in_map.
  - simpl. rewrite E. now apply IH.
Qed.

Lemma lookup_remove_entry_other (es : list (name * node)) c d :
  d <> c -> lookup_entry d (remove_entry c es) = lookup_entry d es.
Proof.
  intros Hdc. induction es as [|[nm ch] es IH]; simpl; [reflexivity|].
  destruct (String.eqb c nm) eqn:E.
  - apply String.eqb_eq in E. subst nm.
    apply String.eqb_neq in Hdc. now rewrite Hdc.
  - simpl. now rewrite IH.
Qed.

Lemma lookup_update_entry_same (es : list (name * node)) c ch new :
  lookup_entry c es = Some ch -> lookup_entry c (update_entry c new es) = Some new.
Proof.
  induction es as [|[nm ch0] es IH]; simpl; [discriminate|].
  destruct (String.eqb c nm) eqn:E; simpl; rewrite E; auto.
Qed.

Lemma lookup_update_entry_other (es : list (name * node)) c d new :
  d <> c -> lookup_entry d (update_entry c new es) = lookup_entry d es.
Proof.
  intros Hdc. induction es as [|[nm ch] es IH]; simpl; [reflexivity|].
  destruct (String.eqb c nm) eqn:E; simpl.
  - apply String.eqb_eq in E. subst nm.
    apply String.eqb_neq in Hdc. now rewrite Hdc.
  - now rewrite IH.
Qed.

Lemma remove_entry_incl (es : list (name * node)) c e :
  In e (remove_entry c es) -> In e es.
Proof.
  induction es as [|[nm ch] es IH]; simpl; [tauto|].
  destruct (String.eqb c nm); simpl; tauto.
Qed.

Lemma remove_entry_NoDup (es : list (name * node)) c :
  NoDup (map fst es) -> NoDup (map fst (remove_entry c es)).
Proof.
  induction es as [|[nm ch] es IH]; simpl; intros Hnd; [constructor|].
  inversion Hnd as [|? ? Hx Hnd']; subst.
  destruct (String.eqb c nm); simpl; [assumption|].
  constructor; [|now apply IH].
  intros Hin. apply Hx. apply in_map_iff in Hin. destruct Hin as (e & He & Hin).
  rewrite <- He. apply in_map. now apply remove_entry_incl in Hin.
Qed.

Lemma update_entry_names (es : list (name * node)) c new :
  map fst (update_entry c new es) = map fst es.
Proof.
  induction es as [|[nm ch] es IH]; simpl; [reflexivity|].
  destruct (String.eqb c nm); simpl; [reflexivity | now rewrite IH].
Qed.

Lemma update_entry_In (es : list (name * node)) c new nm ch :
  In (nm, ch) (update_entry c new es) -> In (nm, ch) es \/ ch = new.
Proof.
  induction es as [|[nm0 ch0] es IH]; simpl; [tauto|].
  destruct (String.eqb c nm0); simpl.
  - intros [H|H]; [inversion H; subst; now right | left; now right].
  - intros [H|H]; [left; now left | destruct (IH H); [left; now right | now right]].
Qed.

(** What [unlink] does to a directory, case by case. *)
Lemma unlink_inr (n n' : node) (p : path) :
  unlink n p = inr n' ->
  exists c p' st r w es ch,
    p = c :: p' /\ n = Dir st r w es /\ lookup_entry c es = Some ch
    /\ ((p' = [] /\ n' = Dir st r w (remove_entry c es))
        \/ (p' <> [] /\ exists ch', unlink ch p' = inr ch'
                                   /\ n' = Dir st r w (update_entry c ch' es))).
Proof.
  destruct p as [|c p']; simpl; [discriminate|].
  destruct n as [st|st r w es]; [discriminate|].
  destruct (lookup_entry c es) as [ch|] eqn:L; [|discriminate].
  intros H. exists c, p', st, r, w, es, ch.
  do 2 (split; [reflexivity|]). split; [exact L|].
  destruct p' as [|c' p''].
  - left. destruct (negb w); [discriminate|].
    destruct (is_dir ch); [discriminate|]. inversion H. auto.
  - right. split; [discriminate|].
    destruct (unlink ch (c' :: p'')) as [e|ch'] eqn:U; [discriminate|].
    inversion H. eauto.
Qed.

Lemma unlink_wf (p : path) : forall n n', wf n -> unlink n p = inr n' -> wf n'.
Proof.
  induction p as [|c p IH]; intros n n' Hwf H.
  - discriminate.
  - destruct (@unlink_inr _ _ _ H)
      as (c0 & p' & st & r & w & es & ch & Hp & Hn & L & Hcase).
    inversion Hp; subst c0 p' n. clear Hp.
    inversion Hwf as [|? ? ? ? Hnd Hch]; subst.
    destruct Hcase as [[_ ->]|[_ (ch' & U & ->)]].
    + constructor; [now apply remove_entry_NoDup|].
      intros nm ch0 Hin. apply remove_entry_incl in Hin. eauto.
    + constructor; [now rewrite update_entry_names|].
      intros nm ch0 Hin. apply update_entry_In in Hin.
      destruct Hin as [Hin| ->]; [eauto|].
      apply (IH ch); [|assumption].
      apply lookup_entry_Some in L. eauto.
Qed.

(** A removed path does not resolve any more. *)
Lemma unlink_gone (p : path) :
  forall n n', wf n -> unlink n p = inr n' -> exists e, resolve n' p = inl e.
Proof.
  induction p as [|c p IH]; intros n n' Hwf H.
  - discriminate.
  - destruct (@unlink_inr _ _ _ H)
      as (c0 & p' & st & r & w & es & ch & Hp & Hn & L & Hcase).
    inversion Hp; subst c0 p' n. clear Hp.
    inversion Hwf as [|? ? ? ? Hnd Hch]; subst.
    destruct Hcase as [[-> ->]|[_ (ch' & U & ->)]]; simpl.
    + rewrite lookup_remove_entry_same by assumption. eauto.
    + rewrite (@lookup_update_entry_same es c ch ch' L).
      apply (IH ch); [|assumption].
      apply lookup_entry_Some in L. eauto.
Qed.

(** A removal makes no path resolve that did not resolve before. *)
Lemma unlink_keeps_unresolved (q : path) :
  forall n n' p e, wf n -> unlink n q = inr n' -> resolve n p = inl e ->
                   exists e', resolve n' p = inl e'.
Proof.
  induction q as [|c q IH]; intros n n' p e Hwf H Hp.
  - discriminate.
  - destruct (@unlink_inr _ _ _ H)
      as (c0 & q' & st & r & w & es & ch & Hq & Hn & L & Hcase).
    inversion Hq; subst c0 q' n. clear Hq.
    inversion Hwf as [|? ? ? ? Hnd Hch]; subst.
    destruct p as [|d p']; [discriminate|]. simpl in Hp.
    destruct (string_dec d c) as [->|Hdc].
    + rewrite L in Hp.
      destruct Hcase as [[_ ->]|[_ (ch' & U & ->)]]; simpl.
      * rewrite lookup_remove_entry_same by assumption. eauto.
      * rewrite (@lookup_update_entry_same es c ch ch' L).
        apply (IH ch ch' p' e); auto.
        apply lookup_entry_Some in L. eauto.
    + destruct Hcase as [[_ ->]|[_ (ch' & U & ->)]]; simpl.
      * rewrite lookup_remove_entry_other by assumption.
        destruct (lookup_entry d es); eauto.
      * rewrite lookup_update_entry_other by assumption.
        destruct (lookup_entry d es); eauto.
Qed.

Lemma remove_all_wf (l : list path) : forall n, wf n -> wf (remove_all n l).
Proof.
  induction l as [|q l IH]; intros n Hwf; simpl; [assumption|].
  destruct (unlink n q) as [e|n'] eqn:U; [now apply IH|].
  apply IH. exact (@unlink_wf q n n' Hwf U).
Qed.

Lemma remove_all_keeps_unresolved (l : list path) :
  forall n p e, wf n -> resolve n p = inl e ->
                exists e', resolve (remove_all n l) p = inl e'.
Proof.
  induction l as [|q l IH]; intros n p e Hwf Hp; simpl; [eauto|].
  destruct (unlink n q) as [e0|n'] eqn:U; [now apply (IH n p e)|].
  destruct (@unlink_keeps_unresolved q n n' p e Hwf U Hp) as [e' He'].
  apply (IH n' p e'); [|assumption]. exact (@unlink_wf q n n' Hwf U).
Qed.

(** A path the executor reports as deleted is gone when the loop ends. *)
Lemma deleted_is_gone (l : list path) :
  forall n p, wf n -> In (INFO, Deleted p) (removal_lines n l) ->
              In p l /\ exists e, resolve (remove_all n l) p = inl e.
Proof.
  induction l as [|q l IH]; intros n p Hwf Hin; simpl in *; [contradiction|].
  destruct (unlink n q) as [e0|n'] eqn:U.
  - destruct Hin as [Hin|Hin]; [discriminate|].
    destruct (IH n p Hwf Hin) as [Hl He]. auto.
  - pose proof (@unlink_wf q n n' Hwf U) as Hwf'.
    destruct Hin as [Hin|Hin].
    + inversion Hin; subst q. split; [now left|].
      destruct (@unlink_gone p n n' Hwf U) as [e He].
      exact (@remove_all_keeps_unresolved l n' p e Hwf' He).
    + destruct (IH n' p Hwf' Hin) as [Hl He]. auto.
Qed.

(** After a loop that removed at least one file the report raises at its
    size line. *)
Lemma report_raises_after_removal
  (l : list path) (remaining : list (path * datetime)) (w : world) (p : path) :
  wf (fs w) ->
  In (INFO, Deleted p) (removal_lines (fs w) l) ->
  exists w1 e q,
    delete_backups l false w = (Ok tt, w1)
    /\ In q l
    /\ generate_report l remaining w1
       = (Raise (OSError e q),
          add_log w1 [(INFO, ReportHeader); (INFO, NumDeleted (List.length l))]).
Proof.
  intros Hwf Hin. rewrite delete_backups_wet. eexists. 
  destruct (@deleted_is_gone l (fs w) p Hwf Hin) as [Hl [e He]].
  assert (HE : Exists (fun p => exists e, resolve (remove_all (fs w) l) p = inl e) l).
  { apply Exists_exists. exists p. eauto. }
  destruct (@probe_sizes_Raise _ l 0 HE) as (e' & q & Hq & _ & Hr).
  exists e', q. split; [reflexivity|]. split; [assumption|].
  rewrite generate_report_cases. simpl fs. now rewrite Hr.
Qed.

Lemma unresolved_unlink_fails (p : path) :
  forall n e, resolve n p = inl e -> exists e', unlink n p = inl e'.
Proof.
  induction p as [|c p IH]; intros n e H; simpl in *; [discriminate|].
  destruct n as [st|st r w es]; [eauto|].
  destruct (lookup_entry c es) as [ch|]; [|eauto].
  destruct p as [|c' p']; [discriminate|].
  destruct (IH ch e H) as [e' He']. rewrite He'. eauto.
Qed.

Lemma unlink_keeps_dir (n n' : node) (p : path) :
  unlink n p = inr n' -> is_dir n' = true.
Proof.
  intros H.
  destruct (@unlink_inr _ _ _ H)
    as (c & p' & st & r & w & es & ch & _ & _ & _ & [[_ ->]|[_ (ch' & _ & ->)]]);
    reflexivity.
Qed.

(** A removal makes no other removal possible that was not possible before. *)
Lemma unlink_keeps_failing (q : path) :
  forall n n' p e, wf n -> unlink n q = inr n' -> unlink n p = inl e ->
                   exists e', unlink n' p = inl e'.
Proof.
  induction q as [|c q IH]; intros n n' p e Hwf H Hp.
  - discriminate.
  - destruct (@unlink_inr _ _ _ H)
      as (c0 & q' & st & r & w & es & ch & Hq & Hn & L & Hcase).
    inversion Hq; subst c0 q' n. clear Hq.
    inversion Hwf as [|? ? ? ? Hnd Hch]; subst.
    destruct p as [|d p']; [simpl; eauto|].
    destruct (string_dec d c) as [->|Hdc].
    + simpl in Hp. rewrite L in Hp.
      destruct Hcase as [[_ ->]|[_ (ch' & U & ->)]]; simpl.
      * rewrite lookup_remove_entry_same by assumption. eauto.
      * rewrite (@lookup_update_entry_same es c ch ch' L).
        destruct p' as [|d' p''].
        -- destruct (negb w); [eauto|].
           rewrite (unlink_keeps_dir _ _ U). eauto.
        -- destruct (unlink ch (d' :: p'')) as [e0|x] eqn:Up; [|discriminate].
           assert (Hwfch : wf ch) by (apply lookup_entry_Some in L; eauto).
           destruct (IH ch ch' (d' :: p'') e0 Hwfch U Up) as [e' He'].
           rewrite He'. eauto.
    + simpl in Hp.
      destruct Hcase as [[_ ->]|[_ (ch' & U & ->)]]; simpl.
      * rewrite lookup_remove_entry_other by assumption.
        destruct (lookup_entry d es) as [chd|]; [|eauto].
        destruct p' as [|d' p''].
        -- destruct (negb w); [eauto|]. destruct (is_dir chd); [eauto|discriminate].
        -- destruct (unlink chd (d' :: p'')); [eauto|discriminate].
      * rewrite lookup_update_entry_other by assumption.
        destruct (lookup_entry d es) as [chd|]; [|eauto].
        destruct p' as [|d' p''].
        -- destruct (negb w); [eauto|]. destruct (is_dir chd); [eauto|discriminate].
        -- destruct (unlink chd (d' :: p'')); [eauto|discriminate].
Qed.

Lemma remove_all_keeps_failing (l : list path) :
  forall n p e, wf n -> unlink n p = inl e ->
                exists e', unlink (remove_all n l) p = inl e'.
Proof.
  induction l as [|q l IH]; intros n p e Hwf Hp; simpl; [eauto|].
  destruct (unlink n q) as [e0|n'] eqn:U; [now apply (IH n p e)|].
  destruct (@unlink_keeps_failing q n n' p e Hwf U Hp) as [e' He'].
  apply (IH n' p e'); [|assumption]. exact (@unlink_wf q n n' Hwf U).
Qed.

(** When the loop ends, none of its paths can be removed any more: what
    could be removed has been. *)
Lemma remove_all_exhaustive (l : list path) :
  forall n p, wf n -> In p l -> exists e, unlink (remove_all n l) p = inl e.
Proof.
  induction l as [|q l IH]; intros n p Hwf Hin; simpl in *; [contradiction|].
  destruct (unlink n q) as [e0|n'] eqn:U.
  - destruct Hin as [->|Hin]; [|now apply IH].
    exact (@remove_all_keeps_failing l n p e0 Hwf U).
  - pose proof (@unlink_wf q n n' Hwf U) as Hwf'.
    destruct Hin as [->|Hin]; [|now apply IH].
    destruct (@unlink_gone p n n' Hwf U) as [e He].
    destruct (@unresolved_unlink_fails p n' e He) as [e' He'].
    exact (@remove_all_keeps_failing l n' p e' Hwf' He').
Qed.

(** * The claims *)

(** C1 fails on the code.  With no remaining backup the reporter never
    completes: whatever the other argument and the world, it raises (the
    [ValueError] of [min] over an empty sequence when the size probes
    succeed); so does the dry run over [/srv/stale], whose only backup is
    old. *)
Theorem generate_report_empty_kept_raises :
  (forall deleted w, exists e w', generate_report deleted [] w = (Raise e, w'))
  /\ main stale_dir 30 true sample_world
     = (Raise ValueError,
        add_log sample_world
          [(INFO, Starting stale_dir); (INFO, AgeThreshold 30);
           (INFO, DryRun true); (INFO, TotalFound 1); (INFO, Identified 1);
           (INFO, WouldDelete (stale_dir ++ ["z.bak"%string]));
           (INFO, ReportHeader); (INFO, NumDeleted 1);
           (INFO, TotalSize 5242880); (INFO, NumRemaining 0)]).
Proof.
  split; [|reflexivity].
  intros deleted w. rewrite generate_report_cases. simpl map.
  destruct (probe_sizes (fs w) deleted 0); eauto.
Qed.

(** C2 fails on the code.  The sizes are probed after the removals, so on
    a well-formed tree every run that removes at least one file raises the
    [OSError] of a path that is gone and logs no total.  The run that
    removes the one old backup of [/srv/stale] (5242880 bytes before the
    removal) is such a run. *)
Theorem report_after_removal_raises :
  (forall dir thr w p,
      wf (fs w) ->
      In (INFO, Deleted p)
         (removal_lines (fs w) (old_paths (clock w) thr (discovered (fs w) dir))) ->
      exists e q, fst (main dir thr false w) = Raise (OSError e q))
  /\ fst (main stale_dir 30 false sample_world)
     = Raise (OSError ENOENT (stale_dir ++ ["z.bak"%string]))
  /\ log (snd (main stale_dir 30 false sample_world))
     = [(INFO, Starting stale_dir); (INFO, AgeThreshold 30);
        (INFO, DryRun false); (INFO, TotalFound 1); (INFO, Identified 1);
        (INFO, Deleted (stale_dir ++ ["z.bak"%string]));
        (INFO, ReportHeader); (INFO, NumDeleted 1)]
  /\ resolve (fs (snd (main stale_dir 30 false sample_world)))
       (stale_dir ++ ["z.bak"%string]) = inl ENOENT
  /\ disk_size (fs sample_world) (stale_dir ++ ["z.bak"%string]) = 5242880.
Proof.
  split; [|repeat split].
  intros dir thr w p Hwf Hin.
  assert (Hd : fst (get_backup_files dir w) = Ok (discovered (fs w) dir))
    by now rewrite get_backup_files_wf.
  rewrite (main_unfold dir thr false w Hd). cbv zeta.
  match goal with
  | |- context [delete_backups ?l false ?w1] =>
      destruct (@report_raises_after_removal l
                  (remaining_of (discovered (fs w) dir) l)
                  w1 p Hwf Hin) as (w2 & e & q & Hdel & _ & Hrep)
  end.
  rewrite Hdel, Hrep. simpl. eauto.
Qed.

Lemma report_after_removal_raises_witness :
  wf (fs sample_world)
  /\ In (INFO, Deleted (stale_dir ++ ["z.bak"%string]))
        (removal_lines (fs sample_world)
           (old_paths (clock sample_world) 30
              (discovered (fs sample_world) stale_dir)))
  /\ exists e q, fst (main stale_dir 30 false sample_world) = Raise (OSError e q).
Proof.
  split; [exact wf_sample_fs|].
  split; [simpl; left; reflexivity|].
  apply (proj1 report_after_removal_raises stale_dir 30 sample_world
           (stale_dir ++ ["z.bak"%string]) wf_sample_fs).
  simpl. left. reflexivity.
Defined.

(** C3 as stated fails.  [/srv/nothere] does not exist and [/srv/readme] is
    a regular file, yet discovery returns normally with no candidate for
    both; the run over the missing root goes through the filter and the
    executor and ends only in the reporter, with the [ValueError] of [min]
    over an empty sequence: not at once, and not with an error about the
    root. *)
Lemma invalid_root_is_not_rejected :
  get_backup_files missing_dir sample_world = (Ok [], sample_world)
  /\ get_backup_files readme_file sample_world = (Ok [], sample_world)
  /\ main missing_dir 30 false sample_world
     = (Raise ValueError,
        add_log sample_world
          [(INFO, Starting missing_dir); (INFO, AgeThreshold 30);
           (INFO, DryRun false); (INFO, TotalFound 0); (INFO, Identified 0);
           (INFO, ReportHeader); (INFO, NumDeleted 0); (INFO, TotalSize 0);
           (INFO, NumRemaining 0)]).
Proof. repeat split. Qed.

(** C3, amended.  For a root that does not exist or is not a directory the
    walk yields nothing and discovery returns the empty list without an
    error; the run goes on with no candidate: it logs that none was found
    and none identified, the executor writes no record since no removal is
    attempted, and the tree is left as it was. *)
Theorem invalid_root_finds_nothing
  (dir : path) (thr : Z) (dry_run : bool) (w : world) :
  isdir (fs w) dir = false ->
  get_backup_files dir w = (Ok [], w)
  /\ fs (snd (main dir thr dry_run w)) = fs w
  /\ exists r rest,
       main dir thr dry_run w
       = (r, add_log w (startup_lines dir thr dry_run
                        ++ [(INFO, TotalFound 0); (INFO, Identified 0)]
                        ++ rest))
       /\ forall rec, In rec rest -> record_path rec = None.
Proof.
  intros H. pose proof (get_backup_files_invalid_root dir w H) as Hd.
  assert (Hf : fst (get_backup_files dir w) = Ok []) by now rewrite Hd.
  assert (Hm : main dir thr dry_run w
               = (Raise ValueError,
                  add_log w (startup_lines dir thr dry_run
                             ++ [(INFO, TotalFound 0); (INFO, Identified 0)]
                             ++ [(INFO, ReportHeader); (INFO, NumDeleted 0);
                                 (INFO, TotalSize 0); (INFO, NumRemaining 0)]))).
  { rewrite (main_unfold dir thr dry_run w Hf). cbv zeta. simpl filter. simpl map.
    unfold delete_backups. simpl for_each. unfold ret.
    rewrite generate_report_cases. simpl. now rewrite add_log_app. }
  split; [exact Hd|]. split; [now rewrite Hm|].
  do 2 eexists. split; [exact Hm|].
  intros rec Hin. simpl in Hin.
  repeat (destruct Hin as [<-|Hin]; [reflexivity|]). contradiction.
Qed.

Lemma invalid_root_finds_nothing_witness :
  get_backup_files missing_dir sample_world = (Ok [], sample_world)
  /\ fs (snd (main missing_dir 30 true sample_world)) = fs sample_world
  /\ exists r rest,
       main missing_dir 30 true sample_world
       = (r, add_log sample_world
               (startup_lines missing_dir 30 true
                ++ [(INFO, TotalFound 0); (INFO, Identified 0)]
                ++ rest))
       /\ forall rec, In rec rest -> record_path rec = None.
Proof.
  apply (invalid_root_finds_nothing missing_dir 30 true sample_world).
  reflexivity.
Defined.

(** C4.  The filter samples the clock once and selects a discovered file as
    old exactly when the days of [now - createdAt] exceed the threshold, for
    any integer threshold; a file created exactly [thr] days before [now] is
    not selected and is among the remaining ones.  Discovery lists every
    path once, which is the hypothesis on [files]. *)
Theorem identify_old_backups_strict
  (files : list (path * datetime)) (thr : Z) (w : world) (p : path) (c : datetime) :
  NoDup (map fst files) ->
  In (p, c) files ->
  exists old,
    identify_old_backups files thr w = (Ok old, w)
    /\ (In p old <-> days (clock w - c) > thr)
    /\ (c = clock w - thr * usec_per_day ->
        ~ In p old /\ In (p, c) (remaining_of files old)).
Proof.
  intros Hnd Hin. eexists. split; [apply identify_old_backups_run|].
  assert (Hiff : In p (old_paths (clock w) thr files)
                 <-> days (clock w - c) > thr).
  { rewrite old_paths_In. split.
    - intros (c' & Hin' & Hlt).
      rewrite (NoDup_map_fst_inj _ _ _ _ Hnd Hin Hin'). lia.
    - intros Hgt. exists c. split; [assumption | lia]. }
  split; [exact Hiff|].
  intros Hc.
  assert (Hno : ~ In p (old_paths (clock w) thr files)).
  { rewrite Hiff. subst c.
    replace (clock w - (clock w - thr * usec_per_day))
      with (thr * usec_per_day) by lia.
    rewrite days_exact. lia. }
  split; [exact Hno|].
  apply remaining_of_In. split; assumption.
Qed.

Lemma identify_old_backups_strict_witness :
  exists old,
    identify_old_backups
      [(["a.bak"%string], day 70); (["b.bak"%string], day 59)] 30
      {| fs := sample_fs; clock := day 100; log := [] |}
    = (Ok old, {| fs := sample_fs; clock := day 100; log := [] |})
    /\ (In ["a.bak"%string] old <-> days (day 100 - day 70) > 30)
    /\ (day 70 = day 100 - 30 * usec_per_day ->
        ~ In ["a.bak"%string] old
        /\ In (["a.bak"%string], day 70)
             (remaining_of
                [(["a.bak"%string], day 70); (["b.bak"%string], day 59)] old)).
Proof.
  apply (identify_old_backups_strict
           [(["a.bak"%string], day 70); (["b.bak"%string], day 59)] 30
           {| fs := sample_fs; clock := day 100; log := [] |}
           ["a.bak"%string] (day 70)).
  - simpl. repeat constructor; simpl; intuition discriminate.
  - simpl. left. reflexivity.
Defined.

(** C5.  On a tree whose directories name each entry once, discovery
    returns every path once, and the list of the old paths and the list of
    the remaining backups split it: together their paths are a rearrangement
    of the discovered paths without a repeat, no old path is among the
    remaining ones, and every discovered backup is in exactly one of the
    two. *)
Theorem old_and_kept_partition (dir : path) (thr : Z) (w : world) :
  wf (fs w) ->
  exists all old,
    get_backup_files dir w = (Ok all, w)
    /\ identify_old_backups all thr w = (Ok old, w)
    /\ NoDup (map fst all)
    /\ Permutation (map fst all) (old ++ map fst (remaining_of all old))
    /\ NoDup (old ++ map fst (remaining_of all old))
    /\ (forall p, In p old -> ~ In p (map fst (remaining_of all old)))
    /\ (forall b, In b all ->
          (In (fst b) old /\ ~ In b (remaining_of all old))
          \/ (~ In (fst b) old /\ In b (remaining_of all old))).
Proof.
  intros Hwf.
  set (all := discovered (fs w) dir).
  set (old := old_paths (clock w) thr all).
  exists all, old.
  assert (Hnd : NoDup (map fst all)) by now apply discovered_NoDup.
  assert (Hperm : Permutation (map fst all) (old ++ map fst (remaining_of all old))).
  { unfold old. rewrite remaining_of_not_old by assumption.
    unfold old_paths. rewrite <- map_app.
    apply Permutation_map, filter_split_Permutation. }
  split; [now apply get_backup_files_wf|].
  split; [reflexivity|].
  split; [assumption|].
  split; [assumption|].
  split; [exact (Permutation_NoDup Hperm Hnd)|].
  split.
  - intros p Hp Hk. apply in_map_iff in Hk. destruct Hk as (b & <- & Hb).
    apply remaining_of_In in Hb. tauto.
  - intros b Hb. destruct (path_in (fst b) old) eqn:Hp.
    + left. apply path_in_In in Hp. split; [assumption|].
      rewrite remaining_of_In. tauto.
    + right. assert (Hn : ~ In (fst b) old).
      { rewrite <- path_in_In. congruence. }
      split; [assumption|]. apply remaining_of_In. tauto.
Qed.

Lemma old_and_kept_partition_witness :
  exists all old,
    get_backup_files backups_dir sample_world = (Ok all, sample_world)
    /\ identify_old_backups all 30 sample_world = (Ok old, sample_world)
    /\ NoDup (map fst all)
    /\ Permutation (map fst all) (old ++ map fst (remaining_of all old))
    /\ NoDup (old ++ map fst (remaining_of all old))
    /\ (forall p, In p old -> ~ In p (map fst (remaining_of all old)))
    /\ (forall b, In b all ->
          (In (fst b) old /\ ~ In b (remaining_of all old))
          \/ (~ In (fst b) old /\ In b (remaining_of all old))).
Proof.
  apply (old_and_kept_partition backups_dir 30 sample_world).
  exact wf_sample_fs.
Defined.

(** The scenario of the three backups aged 10, 40 and 400 days beside a
    text file, threshold 30: discovery, the old paths and the remaining
    ones. *)
Example scenario_partition :
  get_backup_files backups_dir sample_world
  = (Ok [(backups_dir ++ ["a.bak"%string], sample_now - day 10);
         (backups_dir ++ ["b.bak"%string], sample_now - day 40);
         (backups_dir ++ ["c.bak"%string], sample_now - day 400)],
     sample_world)
  /\ fst (identify_old_backups
            [(backups_dir ++ ["a.bak"%string], sample_now - day 10);
             (backups_dir ++ ["b.bak"%string], sample_now - day 40);
             (backups_dir ++ ["c.bak"%string], sample_now - day 400)]
            30 sample_world)
     = Ok [backups_dir ++ ["b.bak"%string]; backups_dir ++ ["c.bak"%string]]
  /\ remaining_of
       [(backups_dir ++ ["a.bak"%string], sample_now - day 10);
        (backups_dir ++ ["b.bak"%string], sample_now - day 40);
        (backups_dir ++ ["c.bak"%string], sample_now - day 400)]
       [backups_dir ++ ["b.bak"%string]; backups_dir ++ ["c.bak"%string]]
     = [(backups_dir ++ ["a.bak"%string], sample_now - day 10)].
Proof. repeat split. Qed.






(** C8.  Outside a dry run the executor never raises: it calls [os.remove]
    on every path of its input in turn, each call on the tree the earlier
    calls left; a call that fails with an [OSError] is recorded in the log
    at level ERROR with the path and the exception, changes nothing, and
    the loop goes on with the next path.  So the log holds one record per
    path, in order, and on a well-formed tree no path of the input can
    still be removed when the loop ends. *)
Theorem delete_backups_continues_after_failure (l : list path) (w : world) :
  delete_backups l false w
  = (Ok tt, {| fs := remove_all (fs w) l;
               clock := clock w;
               log := log w ++ removal_lines (fs w) l |})
  /\ Forall2 (outcome_line false) l (removal_lines (fs w) l)
  /\ map record_path (removal_lines (fs w) l) = map Some l
  /\ (wf (fs w) ->
      forall p, In p l -> exists e, unlink (remove_all (fs w) l) p = inl e).
Proof.
  split; [apply delete_backups_wet|].
  split; [apply removal_lines_outcome|].
  split; [apply removal_lines_paths|].
  intros Hwf p Hin. now apply remove_all_exhaustive.
Qed.

Lemma delete_backups_continues_after_failure_witness :
  wf (fs sample_world)
  /\ In (backups_dir ++ ["b.bak"%string])
        [locked_dir ++ ["old.bak"%string]; backups_dir ++ ["b.bak"%string]]
  /\ exists e,
       unlink (remove_all (fs sample_world)
                 [locked_dir ++ ["old.bak"%string]; backups_dir ++ ["b.bak"%string]])
              (backups_dir ++ ["b.bak"%string]) = inl e.
Proof.
  split; [exact wf_sample_fs|].
  split; [simpl; right; left; reflexivity|].
  apply (proj2 (proj2 (proj2
           (delete_backups_continues_after_failure
              [locked_dir ++ ["old.bak"%string]; backups_dir ++ ["b.bak"%string]]
              sample_world))) wf_sample_fs).
  simpl. right. left. reflexivity.
Defined.

(** A failure followed by a success: the first removal is refused, the
    second is done. *)
Example failure_then_success :
  delete_backups
    [locked_dir ++ ["old.bak"%string]; backups_dir ++ ["b.bak"%string]]
    false sample_world
  = (Ok tt,
     {| fs := remove_all sample_fs [backups_dir ++ ["b.bak"%string]];
        clock := sample_now;
        log := [(ERROR, ErrorDeleting (locked_dir ++ ["old.bak"%string])
                          (OSError EACCES (locked_dir ++ ["old.bak"%string])));
                (INFO, Deleted (backups_dir ++ ["b.bak"%string]))] |})
  /\ resolve (remove_all sample_fs [backups_dir ++ ["b.bak"%string]])
       (backups_dir ++ ["b.bak"%string]) = inl ENOENT.
Proof. split; reflexivity. Qed.

(** C9.  In a dry run the executor touches nothing: it returns the tree it
    was given and adds to the log only one [WouldDelete] record per path.
    A whole dry run of [main] leaves the tree as it found it, so every path
    resolves after the run to what it resolved to before; on a well-formed
    tree each old path is a file before the run and is still that file
    after it. *)
Theorem dry_run_mutates_nothing
  (l : list path) (dir : path) (thr : Z) (w : world) :
  delete_backups l true w
  = (Ok tt, {| fs := fs w; clock := clock w;
               log := log w ++ map (fun p => (INFO, WouldDelete p)) l |})
  /\ fs (snd (main dir thr true w)) = fs w
  /\ (forall p, resolve (fs (snd (main dir thr true w))) p = resolve (fs w) p)
  /\ (wf (fs w) ->
      forall p, In p (old_paths (clock w) thr (discovered (fs w) dir)) ->
      exists st, resolve (fs w) p = inr (File st)
                 /\ resolve (fs (snd (main dir thr true w))) p = inr (File st)).
Proof.
  split; [apply delete_backups_dry|].
  split; [apply main_dry_fs|].
  split; [intros p; now rewrite main_dry_fs|].
  intros Hwf p Hp. apply old_paths_In in Hp. destruct Hp as (c & Hin & _).
  destruct (@discovered_exist (fs w) dir p c Hwf Hin) as [st Hst].
  exists st. now rewrite main_dry_fs.
Qed.

Lemma dry_run_mutates_nothing_witness :
  wf (fs sample_world)
  /\ In (backups_dir ++ ["c.bak"%string])
        (old_paths (clock sample_world) 30 (discovered (fs sample_world) backups_dir))
  /\ exists st,
       resolve (fs sample_world) (backups_dir ++ ["c.bak"%string]) = inr (File st)
       /\ resolve (fs (snd (main backups_dir 30 true sample_world)))
            (backups_dir ++ ["c.bak"%string]) = inr (File st).
Proof.
  split; [exact wf_sample_fs|].
  split; [simpl; right; left; reflexivity|].
  apply (proj2 (proj2 (proj2
           (dry_run_mutates_nothing [] backups_dir 30 sample_world)))
           wf_sample_fs).
  simpl. right. left. reflexivity.
Defined.




(** * Further properties of the script *)

(** ** The walk, in full *)

Lemma scannable_is_dir (n : node) (rel : path) :
  scannable n rel = true -> is_dir n = true.
Proof. destruct rel, n; simpl; intros H; [discriminate|reflexivity|discriminate|reflexivity]. Qed.

Lemma walk_scannable (n : node) :
  wf n ->
  forall top t, In t (walk top n) ->
  exists rel st r w es,
    fst (fst t) = top ++ rel
    /\ scannable n rel = true
    /\ resolve n rel = inr (Dir st r w es)
    /\ NoDup (map fst es)
    /\ snd t = filenames es.
Proof.
  induction 1 as [st|st r w es Hnd Hch IH]; intros top t Hin.
  - contradiction.
  - destruct r; [|contradiction].
    rewrite walk_Dir in Hin. destruct Hin as [<-|Hin].
    + exists [], st, true, w, es. simpl. rewrite app_nil_r. auto.
    + apply in_flat_map in Hin. destruct Hin as ([nm ch] & He & Hin).
      simpl in Hin. destruct (is_dir ch); [|contradiction].
      destruct (IH nm ch He _ _ Hin)
        as (rel & st' & r' & w' & es' & Hr & Hs & Hres & Hnd' & Hf).
      exists (nm :: rel), st', r', w', es'.
      split; [now rewrite Hr, <- app_assoc|].
      simpl. rewrite (@lookup_entry_In es nm ch Hnd He). auto.
Qed.

Lemma walk_complete (rel : path) :
  forall n top st r w es,
    scannable n rel = true ->
    resolve n rel = inr (Dir st r w es) ->
    In (top ++ rel, dirnames es, filenames es) (walk top n).
Proof.
  induction rel as [|c rel IH]; intros n top st r w es Hs Hres.
  - simpl in *. inversion Hres; subst. simpl in Hs. subst r.
    rewrite walk_Dir, app_nil_r. now left.
  - destruct n as [st0|st0 r0 w0 es0]; [discriminate|].
    simpl in Hs, Hres. apply andb_true_iff in Hs. destruct Hs as [-> Hs].
    destruct (lookup_entry c es0) as [ch|] eqn:L; [|discriminate].
    rewrite walk_Dir. right. apply in_flat_map.
    exists (c, ch). split; [now apply lookup_entry_Some|]. simpl.
    rewrite (scannable_is_dir _ _ Hs).
    replace (top ++ c :: rel) with ((top ++ [c]) ++ rel)
      by now rewrite <- app_assoc.
    now apply IH with (st := st) (r := r) (w := w).
Qed.

Lemma filenames_In (es : list (name * node)) (file : name) :
  In file (filenames es) <-> exists st, In (file, File st) es.
Proof.
  unfold filenames. rewrite in_map_iff. split.
  - intros ([nm ch] & Hnm & Hin). simpl in Hnm. subst nm.
    apply filter_In in Hin. destruct Hin as [Hin Hd].
    destruct ch as [st|]; [eauto | discriminate].
  - intros [st Hin]. exists (file, File st). split; [reflexivity|].
    apply filter_In. auto.
Qed.

Lemma resolve_snoc_file (m : node) (rel : path) (file : name) (st : stat) :
  resolve m (rel ++ [file]) = inr (File st) ->
  exists st0 r0 w0 es,
    resolve m rel = inr (Dir st0 r0 w0 es)
    /\ lookup_entry file es = Some (File st).
Proof.
  rewrite resolve_app. destruct (resolve m rel) as [e|x]; [discriminate|].
  simpl. destruct x as [sx|st0 r0 w0 es]; [discriminate|].
  destruct (lookup_entry file es) as [ch|] eqn:L; [|discriminate].
  intros H. inversion H; subst. eauto 6.
Qed.

(** The discovered backups, read off the tree. *)
Lemma discovered_iff (n : node) (dir : path) (p : path) (c : datetime) :
  wf n ->
  (In (p, c) (discovered n dir)
   <-> exists m rel file st,
         resolve n dir = inr m
         /\ p = dir ++ rel ++ [file]
         /\ scannable m rel = true
         /\ resolve m (rel ++ [file]) = inr (File st)
         /\ endswith file ".bak" = true
         /\ c = st_ctime st).
Proof.
  intros Hwf. unfold discovered. rewrite in_flat_map. split.
  - intros (t & Ht & Hin). unfold walked in Ht.
    destruct (resolve n dir) as [e|m] eqn:Hm; [contradiction|].
    destruct (walk_scannable (@wf_resolve _ _ _ Hwf Hm) _ _ Ht)
      as (rel & st0 & r0 & w0 & es & Hr & Hs & Hres & Hnd & Hf).
    unfold backups_of in Hin. apply in_flat_map in Hin.
    destruct Hin as (file & Hfile & Hin).
    destruct (endswith file ".bak") eqn:Hend; [|contradiction].
    destruct Hin as [Hin|[]]. rewrite Hf in Hfile.
    destruct (@filenames_lookup es file Hnd Hfile) as [st Hl].
    assert (Hrf : resolve m (rel ++ [file]) = inr (File st)).
    { rewrite resolve_app, Hres. simpl. now rewrite Hl. }
    assert (Hrp : resolve n (fst (fst t) ++ [file]) = inr (File st)).
    { rewrite Hr, <- app_assoc, resolve_app, Hm. exact Hrf. }
    unfold name in *. rewrite Hrp in Hin. inversion Hin; subst.
    exists m, rel, file, st. rewrite Hr, <- app_assoc. auto 7.
  - intros (m & rel & file & st & Hm & -> & Hs & Hrf & Hend & ->).
    destruct (resolve_snoc_file _ _ _ Hrf) as (st0 & r0 & w0 & es & Hres & Hl).
    exists (dir ++ rel, dirnames es, filenames es). split.
    + unfold walked. rewrite Hm.
      now apply walk_complete with (st := st0) (r := r0) (w := w0).
    + unfold backups_of. simpl fst. simpl snd. apply in_flat_map.
      exists file. split.
      * apply filenames_In. exists st. now apply lookup_entry_Some.
      * rewrite Hend. left. f_equal; [now rewrite <- app_assoc|].
        rewrite <- app_assoc, resolve_app, Hm. unfold name in *. now rewrite Hrf.
Qed.


(** X1.  On a well-formed tree discovery never raises, and it returns
    exactly the regular files whose name ends in [.bak] and that lie below
    the root behind directories that can all be scanned, each with the
    creation time the tree holds for it. *)
Theorem discovery_exact (dir : path) (w : world) :
  wf (fs w) ->
  exists all,
    get_backup_files dir w = (Ok all, w)
    /\ forall p c,
         In (p, c) all
         <-> exists m rel file st,
               resolve (fs w) dir = inr m
               /\ p = dir ++ rel ++ [file]
               /\ scannable m rel = true
               /\ resolve m (rel ++ [file]) = inr (File st)
               /\ endswith file ".bak" = true
               /\ c = st_ctime st.
Proof.
  intros Hwf. exists (discovered (fs w) dir).
  split; [now apply get_backup_files_wf|].
  intros p c. now apply discovered_iff.
Qed.

Lemma discovery_exact_witness :
  exists all,
    get_backup_files backups_dir sample_world = (Ok all, sample_world)
    /\ forall p c,
         In (p, c) all
         <-> exists m rel file st,
               resolve (fs sample_world) backups_dir = inr m
               /\ p = backups_dir ++ rel ++ [file]
               /\ scannable m rel = true
               /\ resolve m (rel ++ [file]) = inr (File st)
               /\ endswith file ".bak" = true
               /\ c = st_ctime st.
Proof. exact (discovery_exact backups_dir sample_world wf_sample_fs). Defined.

(** X2.  Discovery has no effect of its own: whatever the tree, and also
    when it raises, it leaves the tree, the clock and the log as they were
    (it logs nothing), and what it returns depends on the tree alone. *)
Theorem discovery_has_no_effect (dir : path) (w : world)
  (clk : datetime) (lg : list record) :
  snd (get_backup_files dir w) = w
  /\ fst (get_backup_files dir {| fs := fs w; clock := clk; log := lg |})
     = fst (get_backup_files dir w).
Proof.
  split.
  - apply (fs_reader_get_backup_files dir w).
  - now apply (fs_reader_get_backup_files dir w).
Qed.

(** ** The filter, in days *)

Lemma days_gt_iff (thr delta : Z) :
  thr < days delta <-> (thr + 1) * usec_per_day <= delta.
Proof.
  unfold days, usec_per_day. split; intros H.
  - assert (thr + 1 <= delta / 86400000000) by lia.
    pose proof (Z.mul_div_le delta 86400000000 ltac:(lia)). nia.
  - assert (thr + 1 <= delta / 86400000000); [|lia].
    apply Z.div_le_lower_bound; lia.
Qed.

(** X3.  A backup is selected as old exactly when at least [thr + 1] whole
    days lie between its creation time and the sampled clock: a backup that
    is [thr] days and 23 hours old is not selected, nor is, for a threshold
    that is not negative, a backup dated after the clock. *)
Theorem old_after_whole_days
  (files : list (path * datetime)) (thr : Z) (w : world) (p : path) :
  exists old,
    identify_old_backups files thr w = (Ok old, w)
    /\ (In p old
        <-> exists c, In (p, c) files
                      /\ (thr + 1) * usec_per_day <= clock w - c)
    /\ (0 <= thr -> (forall c, In (p, c) files -> clock w <= c) -> ~ In p old).
Proof.
  eexists. split; [apply identify_old_backups_run|]. split.
  - rewrite old_paths_In. split; intros (c & Hin & H); exists c;
      (split; [assumption|]); now apply days_gt_iff.
  - intros Hthr Hfut Hin. apply old_paths_In in Hin.
    destruct Hin as (c & Hin & H). apply days_gt_iff in H.
    specialize (Hfut c Hin). unfold usec_per_day in H. nia.
Qed.

Lemma old_after_whole_days_witness :
  0 <= 30
  /\ (forall c, In (["new.bak"%string], c)
                  [(["new.bak"%string], day 101); (["b.bak"%string], day 59)] ->
                day 100 <= c)
  /\ exists old,
       identify_old_backups
         [(["new.bak"%string], day 101); (["b.bak"%string], day 59)] 30
         {| fs := sample_fs; clock := day 100; log := [] |}
       = (Ok old, {| fs := sample_fs; clock := day 100; log := [] |})
       /\ ~ In ["new.bak"%string] old.
Proof.
  split; [lia|].
  assert (Hfut : forall c, In (["new.bak"%string], c)
                   [(["new.bak"%string], day 101); (["b.bak"%string], day 59)] ->
                 day 100 <= c).
  { intros c [H|[H|[]]]; inversion H; subst. unfold day, usec_per_day. lia. }
  split; [exact Hfut|].
  destruct (@old_after_whole_days
              [(["new.bak"%string], day 101); (["b.bak"%string], day 59)] 30
              {| fs := sample_fs; clock := day 100; log := [] |}
              ["new.bak"%string]) as (old & Hrun & _ & Hno).
  exists old. split; [exact Hrun|]. apply Hno; [lia | exact Hfut].
Defined.

(** X4.  Selection grows with time and shrinks with the threshold: every
    backup selected at some clock and threshold is selected at any later
    clock and any smaller threshold. *)
Theorem old_grows_with_time
  (files : list (path * datetime)) (thr thr' : Z) (w w' : world) :
  clock w <= clock w' ->
  thr' <= thr ->
  exists old old',
    identify_old_backups files thr w = (Ok old, w)
    /\ identify_old_backups files thr' w' = (Ok old', w')
    /\ incl old old'.
Proof.
  intros Hclk Hthr. do 2 eexists.
  split; [apply identify_old_backups_run|].
  split; [apply identify_old_backups_run|].
  intros p Hp. apply old_paths_In in Hp. destruct Hp as (c & Hin & H).
  apply old_paths_In. exists c. split; [assumption|].
  apply days_gt_iff in H. apply days_gt_iff. unfold usec_per_day in *. nia.
Qed.

Lemma old_grows_with_time_witness :
  exists old old',
    identify_old_backups [(["a.bak"%string], day 70)] 30
      {| fs := sample_fs; clock := day 100; log := [] |}
    = (Ok old, {| fs := sample_fs; clock := day 100; log := [] |})
    /\ identify_old_backups [(["a.bak"%string], day 70)] 29
         {| fs := sample_fs; clock := day 101; log := [] |}
       = (Ok old', {| fs := sample_fs; clock := day 101; log := [] |})
    /\ incl old old'.
Proof.
  apply (@old_grows_with_time [(["a.bak"%string], day 70)] 30 29
           {| fs := sample_fs; clock := day 100; log := [] |}
           {| fs := sample_fs; clock := day 101; log := [] |}).
  - unfold day, usec_per_day. simpl. lia.
  - lia.
Defined.

(** ** The executor: what it leaves alone *)

Lemma resolve_File_nil (st st' : stat) (p : path) :
  resolve (File st) p = inr (File st') -> p = [].
Proof. destruct p; simpl; [reflexivity | discriminate]. Qed.

Lemma is_dir_false_File (ch : node) : is_dir ch = false -> exists st, ch = File st.
Proof. destruct ch; simpl; [eauto | discriminate]. Qed.

(** A removal leaves every other file as it is. *)
Lemma unlink_frame_file (q : path) :
  forall n n' p st, unlink n q = inr n' -> p <> q ->
                    resolve n p = inr (File st) -> resolve n' p = inr (File st).
Proof.
  induction q as [|c q IH]; intros n n' p st H Hpq Hp.
  - discriminate.
  - destruct (@unlink_inr _ _ _ H)
      as (c0 & q' & sn & r & w & es & ch & Hq & Hn & L & Hcase).
    inversion Hq; subst c0 q' n. clear Hq.
    destruct p as [|d p']; [discriminate|]. simpl in Hp.
    destruct (string_dec d c) as [->|Hdc].
    + rewrite L in Hp.
      destruct Hcase as [[-> ->]|[_ (ch' & U & ->)]]; simpl.
      * exfalso. simpl in H. rewrite L in H.
        destruct (negb w); [discriminate|].
        destruct (is_dir ch) eqn:Hd; [discriminate|].
        destruct (is_dir_false_File _ Hd) as [sc ->].
        apply resolve_File_nil in Hp. subst p'. now apply Hpq.
      * rewrite (@lookup_update_entry_same es c ch ch' L).
        apply (IH ch ch' p' st U); [|assumption].
        intros ->. now apply Hpq.
    + destruct Hcase as [[_ ->]|[_ (ch' & U & ->)]]; simpl.
      * now rewrite lookup_remove_entry_other.
      * now rewrite lookup_update_entry_other.
Qed.


Lemma remove_all_frame_file (l : list path) :
  forall n p st, ~ In p l -> resolve n p = inr (File st) ->
                 resolve (remove_all n l) p = inr (File st).
Proof.
  induction l as [|q l IH]; intros n p st Hin Hp; simpl; [assumption|].
  assert (Hpq : p <> q) by (intros ->; apply Hin; now left).
  assert (Hl : ~ In p l) by (intros H; apply Hin; now right).
  destruct (unlink n q) as [e|n'] eqn:U; [now apply IH|].
  apply IH; [assumption|]. exact (@unlink_frame_file q n n' p st U Hpq Hp).
Qed.


Lemma delete_backups_fs (l : list path) (dry_run : bool) (w : world) :
  fs (snd (delete_backups l dry_run w))
  = if dry_run then fs w else remove_all (fs w) l.
Proof.
  destruct dry_run; [now rewrite delete_backups_dry | now rewrite delete_backups_wet].
Qed.



(** ** The executor: what it removes *)

Lemma unlink_cons2 st r w es c x xs :
  unlink (Dir st r w es) (c :: x :: xs)
  = match lookup_entry c es with
    | None => inl ENOENT
    | Some ch =>
        match unlink ch (x :: xs) with
        | inl e => inl e
        | inr ch' => inr (Dir st r w (update_entry c ch' es))
        end
    end.
Proof. reflexivity. Qed.

(** [unlink] succeeds exactly on the regular files of writable directories. *)
Lemma unlink_succeeds_iff (parent : path) :
  forall n file,
    (exists n', unlink n (parent ++ [file]) = inr n')
    <-> writable_dir n parent = true /\ isfile n (parent ++ [file]) = true.
Proof.
  induction parent as [|c parent IH]; intros n file.
  - unfold writable_dir, isfile. simpl.
    destruct n as [st|st r w es]; [split; [intros [? H]|intros [H _]]; discriminate|].
    destruct (lookup_entry file es) as [ch|];
      [|split; [intros [? H]|intros [_ H]]; discriminate].
    destruct w; simpl; [|split; [intros [? H]|intros [H _]]; discriminate].
    destruct ch; simpl; split; eauto; try (intros [? H]; discriminate);
      intros [_ H]; discriminate.
  - destruct n as [st|st r w es];
      [unfold writable_dir, isfile; simpl;
       split; [intros [? H]|intros [H _]]; discriminate|].
    assert (Hu : unlink (Dir st r w es) ((c :: parent) ++ [file])
                 = match lookup_entry c es with
                   | None => inl ENOENT
                   | Some ch =>
                       match unlink ch (parent ++ [file]) with
                       | inl e => inl e
                       | inr ch' => inr (Dir st r w (update_entry c ch' es))
                       end
                   end).
    { simpl app. destruct (parent ++ [file]) eqn:E;
        [destruct parent; discriminate | reflexivity]. }
    rewrite Hu.
    assert (Hw : writable_dir (Dir st r w es) (c :: parent)
                 = match lookup_entry c es with
                   | Some ch => writable_dir ch parent
                   | None => false
                   end).
    { unfold writable_dir. simpl. now destruct (lookup_entry c es). }
    assert (Hf : isfile (Dir st r w es) ((c :: parent) ++ [file])
                 = match lookup_entry c es with
                   | Some ch => isfile ch (parent ++ [file])
                   | None => false
                   end).
    { unfold isfile. simpl. now destruct (lookup_entry c es). }
    rewrite Hw, Hf.
    destruct (lookup_entry c es) as [ch|];
      [|split; [intros [? H]|intros [H _]]; discriminate].
    rewrite <- (IH ch file). split.
    + intros [n' H]. destruct (unlink ch (parent ++ [file])); [discriminate|eauto].
    + intros [ch' H]. rewrite H. eauto.
Qed.

(** A removal does not hinder the removal of another path. *)
Lemma unlink_keeps_succeeding (q : path) :
  forall n n' p n2, unlink n q = inr n' -> p <> q -> unlink n p = inr n2 ->
                    exists n3, unlink n' p = inr n3.
Proof.
  induction q as [|c q IH]; intros n n' p n2 H Hpq Hp.
  - discriminate.
  - destruct (@unlink_inr _ _ _ H)
      as (c0 & q' & st & r & w & es & ch & Hq & Hn & L & Hcase).
    inversion Hq; subst c0 q' n. clear Hq.
    destruct p as [|d p']; [discriminate|].
    destruct (string_dec d c) as [->|Hdc].
    + destruct Hcase as [[-> ->]|[Hq' (ch' & U & ->)]].
      * exfalso. simpl in H. rewrite L in H.
        destruct (negb w); [discriminate|].
        destruct (is_dir ch) eqn:Hd; [discriminate|].
        destruct (is_dir_false_File _ Hd) as [sc ->].
        destruct p' as [|x xs]; [now apply Hpq|].
        rewrite unlink_cons2, L in Hp. discriminate.
      * destruct p' as [|x xs].
        -- exfalso. simpl in Hp. rewrite L in Hp.
           destruct (negb w); [discriminate|].
           destruct (is_dir ch) eqn:Hd; [discriminate|].
           destruct (is_dir_false_File _ Hd) as [sc ->].
           destruct q; [now apply Hq'|discriminate].
        -- rewrite unlink_cons2, L in Hp. rewrite unlink_cons2.
           rewrite (@lookup_update_entry_same es c ch ch' L).
           destruct (unlink ch (x :: xs)) as [e|n4] eqn:Up; [discriminate|].
           assert (Hne : x :: xs <> q) by (intros <-; now apply Hpq).
           destruct (IH ch ch' (x :: xs) n4 U Hne Up) as [n3 H3].
           rewrite H3. eauto.
    + simpl in Hp.
      destruct Hcase as [[_ ->]|[_ (ch' & U & ->)]]; simpl.
      * rewrite lookup_remove_entry_other by assumption.
        destruct (lookup_entry d es) as [chd|]; [|discriminate].
        destruct p' as [|x xs].
        -- destruct (negb w); [discriminate|].
           destruct (is_dir chd); [discriminate|eauto].
        -- destruct (unlink chd (x :: xs)); [discriminate|eauto].
      * rewrite lookup_update_entry_other by assumption.
        destruct (lookup_entry d es) as [chd|]; [|discriminate].
        destruct p' as [|x xs].
        -- destruct (negb w); [discriminate|].
           destruct (is_dir chd); [discriminate|eauto].
        -- destruct (unlink chd (x :: xs)); [discriminate|eauto].
Qed.

(** Among distinct paths, whether one is reported deleted is settled by the
    tree the loop starts from. *)
Lemma deleted_iff_removable (l : list path) :
  forall n p, wf n -> NoDup l ->
    (In (INFO, Deleted p) (removal_lines n l)
     <-> In p l /\ exists n', unlink n p = inr n').
Proof.
  induction l as [|q l IH]; intros n p Hwf Hnd; simpl.
  - tauto.
  - inversion Hnd as [|? ? Hq Hnd']; subst.
    destruct (unlink n q) as [e|n1] eqn:U; simpl.
    + rewrite (IH n p Hwf Hnd'). split.
      * intros [H|[Hin Hr]]; [discriminate | tauto].
      * intros [[->|Hin] [n' Hr]]; [congruence | right; eauto].
    + pose proof (@unlink_wf q n n1 Hwf U) as Hwf1.
      rewrite (IH n1 p Hwf1 Hnd'). split.
      * intros [H|[Hin [n' Hr]]].
        -- inversion H; subst. split; [now left | eauto].
        -- split; [now right|].
           destruct (unlink n p) as [e|n2] eqn:Up; [|eauto].
           destruct (@unlink_keeps_failing q n n1 p e Hwf U Up) as [e' He'].
           congruence.
      * intros [[->|Hin] [n' Hr]]; [now left|].
        right. split; [assumption|].
        assert (Hpq : p <> q) by (intros ->; contradiction).
        exact (@unlink_keeps_succeeding q n n1 p n' U Hpq Hr).
Qed.

Lemma removable_iff (n : node) (p : path) :
  (exists n', unlink n p = inr n')
  <-> exists parent file,
        p = parent ++ [file]
        /\ writable_dir n parent = true /\ isfile n p = true.
Proof.
  split.
  - intros [n' H]. destruct p as [|c p] using rev_ind; [discriminate|].
    exists p, c. split; [reflexivity|].
    apply unlink_succeeds_iff. eauto.
  - intros (parent & file & -> & H). now apply unlink_succeeds_iff.
Qed.

(** X6.  Given distinct paths on a well-formed tree, the loop deletes a path
    exactly when, at the start, it is a regular file in a directory that
    can be written: what happens to one path depends neither on the other
    paths nor on their order. *)
Theorem deleted_exactly_removable (l : list path) (w : world) :
  wf (fs w) ->
  NoDup l ->
  exists w1 lines,
    delete_backups l false w = (Ok tt, w1)
    /\ log w1 = log w ++ lines
    /\ forall p,
         In (INFO, Deleted p) lines
         <-> In p l
             /\ exists parent file,
                  p = parent ++ [file]
                  /\ writable_dir (fs w) parent = true
                  /\ isfile (fs w) p = true.
Proof.
  intros Hwf Hnd. do 2 eexists.
  split; [apply delete_backups_wet|]. split; [reflexivity|].
  intros p. rewrite (@deleted_iff_removable l (fs w) p Hwf Hnd).
  now rewrite removable_iff.
Qed.

Lemma deleted_exactly_removable_witness :
  exists w1 lines,
    delete_backups
      [locked_dir ++ ["old.bak"%string]; backups_dir ++ ["b.bak"%string]]
      false sample_world = (Ok tt, w1)
    /\ log w1 = log sample_world ++ lines
    /\ forall p,
         In (INFO, Deleted p) lines
         <-> In p [locked_dir ++ ["old.bak"%string]; backups_dir ++ ["b.bak"%string]]
             /\ exists parent file,
                  p = parent ++ [file]
                  /\ writable_dir (fs sample_world) parent = true
                  /\ isfile (fs sample_world) p = true.
Proof.
  apply (@deleted_exactly_removable
           [locked_dir ++ ["old.bak"%string]; backups_dir ++ ["b.bak"%string]]
           sample_world wf_sample_fs).
  repeat constructor; simpl; intuition discriminate.
Defined.

Lemma all_fail (l : list path) (n : node) :
  (forall p, In p l -> exists e, unlink n p = inl e) ->
  remove_all n l = n
  /\ forallb is_error_line (removal_lines n l) = true
  /\ List.length (removal_lines n l) = List.length l.
Proof.
  induction l as [|q l IH]; intros H; simpl; [auto|].
  destruct (H q (or_introl eq_refl)) as [e He]. rewrite He. simpl.
  destruct IH as (H1 & H2 & H3); [intros p Hp; apply H; now right|].
  rewrite H1, H2, H3. auto.
Qed.

(** X7.  On a well-formed tree a second pass of the loop over the same
    paths removes nothing: it leaves the tree as the first pass left it and
    writes one error record per path. *)
Theorem second_pass_removes_nothing (l : list path) (w : world) :
  wf (fs w) ->
  exists w1 w2 lines,
    delete_backups l false w = (Ok tt, w1)
    /\ delete_backups l false w1 = (Ok tt, w2)
    /\ fs w2 = fs w1
    /\ log w2 = log w1 ++ lines
    /\ forallb is_error_line lines = true
    /\ List.length lines = List.length l.
Proof.
  intros Hwf. rewrite delete_backups_wet.
  do 3 eexists. split; [reflexivity|]. rewrite delete_backups_wet. simpl fs.
  destruct (@all_fail l (remove_all (fs w) l)) as (H1 & H2 & H3).
  { intros p Hp. now apply remove_all_exhaustive. }
  split; [reflexivity|]. simpl. rewrite H1. auto.
Qed.

Lemma second_pass_removes_nothing_witness :
  exists w1 w2 lines,
    delete_backups [backups_dir ++ ["b.bak"%string]] false sample_world = (Ok tt, w1)
    /\ delete_backups [backups_dir ++ ["b.bak"%string]] false w1 = (Ok tt, w2)
    /\ fs w2 = fs w1
    /\ log w2 = log w1 ++ lines
    /\ forallb is_error_line lines = true
    /\ List.length lines = List.length [backups_dir ++ ["b.bak"%string]].
Proof.
  exact (@second_pass_removes_nothing [backups_dir ++ ["b.bak"%string]]
           sample_world wf_sample_fs).
Defined.

(** ** The reporter *)

Lemma fold_left_min_spec (l : list Z) :
  forall x, In (fold_left Z.min l x) (x :: l)
            /\ forall y, In y (x :: l) -> fold_left Z.min l x <= y.
Proof.
  induction l as [|a l IH]; intros x; simpl.
  - split; [now left | intros y [<-|[]]; lia].
  - destruct (IH (Z.min x a)) as [Hin Hle]. split.
    + destruct Hin as [Hin|Hin]; [|auto].
      rewrite <- Hin. destruct (Z.min_spec x a) as [[_ ->]|[_ ->]]; auto.
    + intros y [<-|[<-|Hy]].
      * specialize (Hle (Z.min x a) (or_introl eq_refl)). lia.
      * specialize (Hle (Z.min x a) (or_introl eq_refl)). lia.
      * apply Hle. now right.
Qed.

Lemma fold_left_max_spec (l : list Z) :
  forall x, In (fold_left Z.max l x) (x :: l)
            /\ forall y, In y (x :: l) -> y <= fold_left Z.max l x.
Proof.
  induction l as [|a l IH]; intros x; simpl.
  - split; [now left | intros y [<-|[]]; lia].
  - destruct (IH (Z.max x a)) as [Hin Hle]. split.
    + destruct Hin as [Hin|Hin]; [|auto].
      rewrite <- Hin. destruct (Z.max_spec x a) as [[_ ->]|[_ ->]]; auto.
    + intros y [<-|[<-|Hy]].
      * specialize (Hle (Z.max x a) (or_introl eq_refl)). lia.
      * specialize (Hle (Z.max x a) (or_introl eq_refl)). lia.
      * apply Hle. now right.
Qed.

(** X8.  The reporter completes exactly when there is at least one
    remaining backup and every path of its first argument can be probed on
    disk; otherwise it raises. *)
Theorem report_completes_iff
  (deleted : list path) (remaining : list (path * datetime)) (w : world) :
  fst (generate_report deleted remaining w) = Ok tt
  <-> remaining <> []
      /\ Forall (fun p => exists ch, resolve (fs w) p = inr ch) deleted.
Proof.
  rewrite generate_report_cases.
  destruct (probe_sizes (fs w) deleted 0) as [total|e] eqn:Hp.
  - apply probe_sizes_Ok_inv in Hp. destruct Hp as [_ HF].
    destruct remaining as [|b rem]; simpl; split.
    + discriminate.
    + intros [H _]. now contradiction H.
    + intros _. split; [discriminate | assumption].
    + reflexivity.
  - simpl. split; [discriminate|]. intros [_ HF].
    rewrite (@probe_sizes_Ok (fs w) deleted 0 HF) in Hp. discriminate.
Qed.

(** What a completed report holds. *)
Lemma generate_report_Ok
  (deleted : list path) (remaining : list (path * datetime)) (w : world) :
  remaining <> [] ->
  Forall (fun p => exists ch, resolve (fs w) p = inr ch) deleted ->
  exists oldest newest,
    generate_report deleted remaining w
    = (Ok tt,
       add_log w [(INFO, ReportHeader);
                  (INFO, NumDeleted (List.length deleted));
                  (INFO, TotalSize (total_size (fs w) deleted));
                  (INFO, NumRemaining (List.length remaining));
                  (INFO, OldestRemaining oldest);
                  (INFO, NewestRemaining newest)])
    /\ In oldest (map snd remaining)
    /\ In newest (map snd remaining)
    /\ forall b, In b remaining -> oldest <= snd b <= newest.
Proof.
  intros Hne HF. rewrite generate_report_cases.
  rewrite (@probe_sizes_Ok (fs w) deleted 0 HF). simpl Z.add.
  destruct remaining as [|b rem]; [now contradiction Hne|].
  simpl map.
  destruct (fold_left_min_spec (map snd rem) (snd b)) as [Hmin Hle].
  destruct (fold_left_max_spec (map snd rem) (snd b)) as [Hmax Hge].
  do 2 eexists. split; [reflexivity|].
  split; [exact Hmin|]. split; [exact Hmax|].
  intros b' Hb'. assert (Hin : In (snd b') (snd b :: map snd rem)).
  { change (In (snd b') (map snd (b :: rem))). now apply in_map. }
  split; [now apply Hle | now apply Hge].
Qed.


(** X9.  When the reporter completes it has written six records: the
    header, the length of its first argument, the sum of the sizes those
    paths have on disk, the number of remaining backups, and as oldest and
    newest the least and the greatest creation time among the remaining
    backups, each the time of one of them. *)
Theorem report_content
  (deleted : list path) (remaining : list (path * datetime)) (w : world) :
  remaining <> [] ->
  Forall (fun p => exists ch, resolve (fs w) p = inr ch) deleted ->
  exists oldest newest,
    generate_report deleted remaining w
    = (Ok tt,
       add_log w [(INFO, ReportHeader);
                  (INFO, NumDeleted (List.length deleted));
                  (INFO, TotalSize (total_size (fs w) deleted));
                  (INFO, NumRemaining (List.length remaining));
                  (INFO, OldestRemaining oldest);
                  (INFO, NewestRemaining newest)])
    /\ In oldest (map snd remaining)
    /\ In newest (map snd remaining)
    /\ forall b, In b remaining -> oldest <= snd b <= newest.
Proof. apply generate_report_Ok. Qed.

Lemma report_content_witness :
  exists oldest newest,
    generate_report [backups_dir ++ ["b.bak"%string]]
      [(backups_dir ++ ["a.bak"%string], day 70);
       (backups_dir ++ ["c.bak"%string], day 50)] sample_world
    = (Ok tt,
       add_log sample_world
         [(INFO, ReportHeader);
          (INFO, NumDeleted (List.length [backups_dir ++ ["b.bak"%string]]));
          (INFO, TotalSize (total_size (fs sample_world)
                              [backups_dir ++ ["b.bak"%string]]));
          (INFO, NumRemaining
                   (List.length [(backups_dir ++ ["a.bak"%string], day 70);
                                 (backups_dir ++ ["c.bak"%string], day 50)]));
          (INFO, OldestRemaining oldest);
          (INFO, NewestRemaining newest)])
    /\ In oldest (map snd [(backups_dir ++ ["a.bak"%string], day 70);
                           (backups_dir ++ ["c.bak"%string], day 50)])
    /\ In newest (map snd [(backups_dir ++ ["a.bak"%string], day 70);
                           (backups_dir ++ ["c.bak"%string], day 50)])
    /\ forall b, In b [(backups_dir ++ ["a.bak"%string], day 70);
                       (backups_dir ++ ["c.bak"%string], day 50)] ->
                 oldest <= snd b <= newest.
Proof.
  apply (@report_content [backups_dir ++ ["b.bak"%string]]
           [(backups_dir ++ ["a.bak"%string], day 70);
            (backups_dir ++ ["c.bak"%string], day 50)] sample_world).
  - discriminate.
  - constructor; [|constructor]. eexists. reflexivity.
Defined.

(** X10.  The reporter changes neither the tree nor the clock, whether it
    completes or raises, and it only adds to the log: what was logged before
    stays, followed by the header and the count line. *)
Theorem report_only_logs
  (deleted : list path) (remaining : list (path * datetime)) (w : world) :
  exists rest,
    snd (generate_report deleted remaining w)
    = add_log w ((INFO, ReportHeader)
                 :: (INFO, NumDeleted (List.length deleted)) :: rest).
Proof.
  rewrite generate_report_cases.
  destruct (probe_sizes (fs w) deleted 0) as [total|e]; [|now exists []].
  destruct (map snd remaining); eexists; reflexivity.
Qed.

(** ** The whole run *)

Lemma main_fs (dir : path) (thr : Z) (dry_run : bool) (w : world)
  (all : list (path * datetime)) :
  fst (get_backup_files dir w) = Ok all ->
  fs (snd (main dir thr dry_run w))
  = if dry_run then fs w else remove_all (fs w) (old_paths (clock w) thr all).
Proof.
  intros Hd. rewrite (main_unfold dir thr dry_run w Hd). cbv zeta.
  match goal with
  | |- context [delete_backups ?l ?d ?w1] =>
      pose proof (delete_backups_fs l d w1) as Hfs;
      destruct (delete_backups_lines l d w1) as (n' & lines & Hdel & _)
  end.
  rewrite Hdel in *. simpl in Hfs.
  match goal with
  | |- context [generate_report ?d ?r ?w2] =>
      pose proof (generate_report_fs d r w2) as Hg;
      destruct (generate_report d r w2) as [[[]|e] w3]
  end; simpl in *; congruence.
Qed.

Lemma old_paths_NoDup (now : datetime) (thr : Z) (all : list (path * datetime)) :
  NoDup (map fst all) -> NoDup (old_paths now thr all).
Proof. apply NoDup_map_filter. Qed.

(** X11.  A run removes nothing but old backups below its root: on a
    well-formed tree a regular file that is no longer the same file after
    the run was removed by a run that is not a dry run, lies below the root
    directory, has a name ending in [.bak] and was created at least
    [thr + 1] whole days before the clock. *)
Theorem main_removes_only_old_backups
  (dir : path) (thr : Z) (dry_run : bool) (w : world) (p : path) (st : stat) :
  wf (fs w) ->
  resolve (fs w) p = inr (File st) ->
  resolve (fs (snd (main dir thr dry_run w))) p <> inr (File st) ->
  dry_run = false
  /\ exists rel file,
       p = dir ++ rel ++ [file]
       /\ endswith file ".bak" = true
       /\ (thr + 1) * usec_per_day <= clock w - st_ctime st.
Proof.
  intros Hwf Hp Hgone.
  assert (Hd : fst (get_backup_files dir w) = Ok (discovered (fs w) dir))
    by now rewrite get_backup_files_wf.
  rewrite (main_fs dir thr dry_run w Hd) in Hgone.
  destruct dry_run; [contradiction|]. split; [reflexivity|].
  destruct (path_in p (old_paths (clock w) thr (discovered (fs w) dir))) eqn:Hin.
  - apply path_in_In, old_paths_In in Hin. destruct Hin as (c & Hin & Hold).
    apply (@discovered_iff (fs w) dir p c Hwf) in Hin.
    destruct Hin as (m & rel & file & st' & Hm & Hpe & _ & Hrf & Hend & Hc).
    exists rel, file. split; [assumption|]. split; [assumption|].
    assert (Hst : resolve (fs w) p = inr (File st')).
    { rewrite Hpe, resolve_app, Hm. exact Hrf. }
    rewrite Hp in Hst. inversion Hst; subst st'. subst c.
    now apply days_gt_iff.
  - exfalso. apply Hgone. apply remove_all_frame_file; [|assumption].
    rewrite <- path_in_In. congruence.
Qed.

Lemma main_removes_only_old_backups_witness :
  wf (fs sample_world)
  /\ resolve (fs sample_world) (backups_dir ++ ["c.bak"%string])
     = inr (File {| st_size := 300; st_ctime := sample_now - day 400 |})
  /\ resolve (fs (snd (main backups_dir 30 false sample_world)))
       (backups_dir ++ ["c.bak"%string])
     <> inr (File {| st_size := 300; st_ctime := sample_now - day 400 |})
  /\ exists rel file,
       backups_dir ++ ["c.bak"%string] = backups_dir ++ rel ++ [file]
       /\ endswith file ".bak" = true
       /\ (30 + 1) * usec_per_day
          <= clock sample_world
             - st_ctime {| st_size := 300; st_ctime := sample_now - day 400 |}.
Proof.
  assert (Hg : resolve (fs (snd (main backups_dir 30 false sample_world)))
                 (backups_dir ++ ["c.bak"%string])
               <> inr (File {| st_size := 300; st_ctime := sample_now - day 400 |})).
  { discriminate. }
  split; [exact wf_sample_fs|]. split; [reflexivity|]. split; [exact Hg|].
  exact (proj2 (@main_removes_only_old_backups backups_dir 30 false sample_world
                  (backups_dir ++ ["c.bak"%string])
                  {| st_size := 300; st_ctime := sample_now - day 400 |}
                  wf_sample_fs eq_refl Hg)).
Defined.

Lemma discovered_resolvable (n : node) (dir : path) (now : datetime) (thr : Z) :
  wf n ->
  Forall (fun p => exists ch, resolve n p = inr ch)
         (old_paths now thr (discovered n dir)).
Proof.
  intros Hwf. apply Forall_forall. intros p Hp.
  apply old_paths_In in Hp. destruct Hp as (c & Hin & _).
  destruct (@discovered_exist n dir p c Hwf Hin) as [st Hst]. eauto.
Qed.

(** X12.  A dry run on a well-formed tree that keeps at least one backup
    completes, and its log is: the three starting records, the number of
    backups found and of old ones, one [WouldDelete] record per old backup
    in discovery order, the report with the summed sizes of the old
    backups and the least and greatest creation time of the kept ones, and
    the closing record. *)
Theorem dry_run_log (dir : path) (thr : Z) (w : world) :
  wf (fs w) ->
  let all := discovered (fs w) dir in
  let old := old_paths (clock w) thr all in
  let kept := remaining_of all old in
  kept <> [] ->
  exists oldest newest,
    main dir thr true w
    = (Ok tt,
       add_log w
         (startup_lines dir thr true
          ++ [(INFO, TotalFound (List.length all));
              (INFO, Identified (List.length old))]
          ++ map (fun p => (INFO, WouldDelete p)) old
          ++ [(INFO, ReportHeader);
              (INFO, NumDeleted (List.length old));
              (INFO, TotalSize (total_size (fs w) old));
              (INFO, NumRemaining (List.length kept));
              (INFO, OldestRemaining oldest);
              (INFO, NewestRemaining newest);
              (INFO, Completed)]))
    /\ In oldest (map snd kept)
    /\ In newest (map snd kept)
    /\ forall b, In b kept -> oldest <= snd b <= newest.
Proof.
  intros Hwf all old kept Hne.
  assert (Hd : fst (get_backup_files dir w) = Ok all)
    by (unfold all; now rewrite get_backup_files_wf).
  rewrite (main_unfold dir thr true w Hd). cbv zeta. fold old. fold kept.
  rewrite delete_backups_dry, add_log_app.
  match goal with
  | |- context [generate_report old kept ?w2] =>
      destruct (@generate_report_Ok old kept w2 Hne
                  (discovered_resolvable dir (clock w) thr Hwf))
        as (oldest & newest & Hrep & Hmin & Hmax & Hb)
  end.
  exists oldest, newest. rewrite Hrep. simpl fs. rewrite !add_log_app.
  split; [reflexivity | auto].
Qed.

Lemma dry_run_log_witness :
  let all := discovered (fs sample_world) backups_dir in
  let old := old_paths (clock sample_world) 30 all in
  let kept := remaining_of all old in
  exists oldest newest,
    main backups_dir 30 true sample_world
    = (Ok tt,
       add_log sample_world
         (startup_lines backups_dir 30 true
          ++ [(INFO, TotalFound (List.length all));
              (INFO, Identified (List.length old))]
          ++ map (fun p => (INFO, WouldDelete p)) old
          ++ [(INFO, ReportHeader);
              (INFO, NumDeleted (List.length old));
              (INFO, TotalSize (total_size (fs sample_world) old));
              (INFO, NumRemaining (List.length kept));
              (INFO, OldestRemaining oldest);
              (INFO, NewestRemaining newest);
              (INFO, Completed)]))
    /\ In oldest (map snd kept)
    /\ In newest (map snd kept)
    /\ forall b, In b kept -> oldest <= snd b <= newest.
Proof.
  apply (@dry_run_log backups_dir 30 sample_world wf_sample_fs).
  discriminate.
Defined.

Lemma probe_sizes_Ok_iff (n : node) (l : list path) (acc : Z) :
  (exists t, probe_sizes n l acc = Ok t)
  <-> Forall (fun p => exists ch, resolve n p = inr ch) l.
Proof.
  split.
  - intros [t H]. now apply probe_sizes_Ok_inv in H.
  - intros HF. rewrite (@probe_sizes_Ok n l acc HF). eauto.
Qed.

Lemma main_Ok_iff (dir : path) (thr : Z) (dry_run : bool) (w : world)
  (all : list (path * datetime)) :
  fst (get_backup_files dir w) = Ok all ->
  let old := old_paths (clock w) thr all in
  (fst (main dir thr dry_run w) = Ok tt
   <-> remaining_of all old <> []
       /\ Forall (fun p => exists ch,
                    resolve (if dry_run then fs w else remove_all (fs w) old) p
                    = inr ch) old).
Proof.
  intros Hd old. rewrite (main_unfold dir thr dry_run w Hd). cbv zeta. fold old.
  match goal with
  | |- context [delete_backups old dry_run ?w1] =>
      pose proof (delete_backups_fs old dry_run w1) as Hfs;
      destruct (delete_backups_lines old dry_run w1) as (n' & lines & Hdel & _)
  end.
  rewrite Hdel in *. simpl in Hfs. subst n'.
  rewrite generate_report_cases. simpl fs.
  rewrite <- (probe_sizes_Ok_iff _ old 0).
  destruct (probe_sizes _ old 0) as [total|e].
  - destruct (remaining_of all old) as [|b rem]; simpl; split.
    + discriminate.
    + intros [H _]. now contradiction H.
    + intros _. split; [discriminate | eauto].
    + reflexivity.
  - simpl. split; [discriminate|]. intros [_ [t H]]. discriminate.
Qed.

(** X13.  When a run completes.  On a well-formed tree a run returns
    normally exactly when it keeps at least one backup and, unless it is a
    dry run, no old backup lies in a directory that can be written: a run
    that is not a dry run completes only if it removes nothing. *)
Theorem main_completes_iff (dir : path) (thr : Z) (dry_run : bool) (w : world) :
  wf (fs w) ->
  let all := discovered (fs w) dir in
  let old := old_paths (clock w) thr all in
  (fst (main dir thr dry_run w) = Ok tt
   <-> remaining_of all old <> []
       /\ (dry_run = true
           \/ forall parent file,
                In (parent ++ [file]) old -> writable_dir (fs w) parent = false)).
Proof.
  intros Hwf all old.
  assert (Hd : fst (get_backup_files dir w) = Ok all)
    by (unfold all; now rewrite get_backup_files_wf).
  rewrite (main_Ok_iff dir thr dry_run w Hd). fold old.
  assert (Hres : Forall (fun p => exists ch, resolve (fs w) p = inr ch) old)
    by now apply discovered_resolvable.
  assert (Hfile : forall p, In p old -> isfile (fs w) p = true).
  { intros p Hp. apply old_paths_In in Hp. destruct Hp as (c & Hin & _).
    destruct (@discovered_exist (fs w) dir p c Hwf Hin) as [st Hst].
    unfold isfile. now rewrite Hst. }
  assert (Hnd : NoDup old)
    by (apply old_paths_NoDup; now apply discovered_NoDup).
  destruct dry_run.
  - split; [intros [H _]; auto | intros [H _]; auto].
  - split; intros [Hne H]; (split; [assumption|]).
    + right. intros parent file Hin.
      destruct (writable_dir (fs w) parent) eqn:Hw; [|reflexivity]. exfalso.
      assert (Hrem : exists n', unlink (fs w) (parent ++ [file]) = inr n').
      { apply unlink_succeeds_iff. split; [assumption | now apply Hfile]. }
      assert (Hdel : In (INFO, Deleted (parent ++ [file]))
                        (removal_lines (fs w) old)).
      { apply deleted_iff_removable; auto. }
      destruct (@deleted_is_gone old (fs w) _ Hwf Hdel) as [_ [e He]].
      rewrite Forall_forall in H. destruct (H _ Hin) as [ch Hch]. congruence.
    + destruct H as [H|H]; [discriminate|].
      destruct (@all_fail old (fs w)) as (Hsame & _).
      { intros p Hp. destruct (unlink (fs w) p) as [e|n'] eqn:U; [eauto|].
        exfalso. assert (Hr : exists n', unlink (fs w) p = inr n') by eauto.
        apply removable_iff in Hr.
        destruct Hr as (parent & file & -> & Hw & _).
        rewrite (H parent file Hp) in Hw. discriminate. }
      now rewrite Hsame.
Qed.

Lemma main_completes_iff_witness :
  let all := discovered (fs sample_world) locked_dir in
  let old := old_paths (clock sample_world) 30 all in
  (fst (main locked_dir 30 false sample_world) = Ok tt
   <-> remaining_of all old <> []
       /\ (false = true
           \/ forall parent file,
                In (parent ++ [file]) old ->
                writable_dir (fs sample_world) parent = false)).
Proof.
  exact (@main_completes_iff locked_dir 30 false sample_world wf_sample_fs).
Defined.






(** ** A second run *)

Lemma scannable_iff (rel : path) :
  forall m,
    scannable m rel = true
    <-> forall k, (k <= List.length rel)%nat ->
                  readable_dir m (firstn k rel) = true.
Proof.
  induction rel as [|c rel IH]; intros m.
  - unfold readable_dir. simpl. split.
    + intros H k _. now rewrite firstn_nil.
    + intros H. exact (H 0%nat (Nat.le_refl 0)).
  - split.
    + intros H k Hk. simpl in H.
      destruct m as [st|st r w es]; [discriminate|].
      apply andb_true_iff in H. destruct H as [Hr H].
      destruct k as [|k]; [exact Hr|].
      destruct (lookup_entry c es) as [ch|] eqn:L; [|discriminate].
      unfold readable_dir. simpl. rewrite L.
      apply (proj1 (IH ch) H k). simpl in Hk. lia.
    + intros H. pose proof (H 0%nat ltac:(simpl; lia)) as H0.
      pose proof (H 1%nat ltac:(simpl; lia)) as H1.
      unfold readable_dir in H0, H1. simpl in H0, H1.
      destruct m as [st|st r w es]; [discriminate|]. simpl.
      rewrite H0. simpl.
      destruct (lookup_entry c es) as [ch|] eqn:L; [|discriminate].
      apply IH. intros k Hk.
      specialize (H (S k) ltac:(simpl; lia)).
      unfold readable_dir in H. simpl in H. now rewrite L in H.
Qed.

Lemma readable_dir_app (n m : node) (dir x : path) :
  resolve n dir = inr m -> readable_dir n (dir ++ x) = readable_dir m x.
Proof. intros H. unfold readable_dir. now rewrite resolve_app, H. Qed.

(** The discovered backups, by paths of the tree alone. *)
Lemma discovered_by_paths (n : node) (dir : path) (p : path) (c : datetime) :
  wf n ->
  (In (p, c) (discovered n dir)
   <-> exists rel file st,
         p = dir ++ rel ++ [file]
         /\ (forall k, (k <= List.length rel)%nat ->
                       readable_dir n (dir ++ firstn k rel) = true)
         /\ resolve n p = inr (File st)
         /\ endswith file ".bak" = true
         /\ c = st_ctime st).
Proof.
  intros Hwf. rewrite (@discovered_iff n dir p c Hwf). split.
  - intros (m & rel & file & st & Hm & Hp & Hs & Hrf & Hend & Hc).
    exists rel, file, st. split; [assumption|]. split.
    + intros k Hk. rewrite (@readable_dir_app n m dir _ Hm).
      now apply (proj1 (scannable_iff rel m)).
    + split; [|auto]. now rewrite Hp, resolve_app, Hm.
  - intros (rel & file & st & Hp & Hs & Hrf & Hend & Hc).
    pose proof (Hs 0%nat ltac:(lia)) as H0. simpl in H0. rewrite app_nil_r in H0.
    unfold readable_dir in H0.
    destruct (resolve n dir) as [e|m] eqn:Hm; [discriminate|].
    exists m, rel, file, st. split; [reflexivity|]. split; [assumption|].
    split.
    + apply scannable_iff. intros k Hk.
      rewrite <- (@readable_dir_app n m dir _ Hm). now apply Hs.
    + split; [|auto]. rewrite Hp, resolve_app, Hm in Hrf. exact Hrf.
Qed.

(** A removal creates no file and alters none. *)
Lemma unlink_reverse_file (q : path) :
  forall n n' p st, wf n -> unlink n q = inr n' ->
                    resolve n' p = inr (File st) -> resolve n p = inr (File st).
Proof.
  induction q as [|c q IH]; intros n n' p st Hwf H Hp.
  - discriminate.
  - destruct (@unlink_inr _ _ _ H)
      as (c0 & q' & sn & r & w & es & ch & Hq & Hn & L & Hcase).
    inversion Hq; subst c0 q' n. clear Hq.
    inversion Hwf as [|? ? ? ? Hnd Hch]; subst.
    destruct p as [|d p'].
    + destruct Hcase as [[_ ->]|[_ (ch' & _ & ->)]]; discriminate.
    + simpl. destruct (string_dec d c) as [->|Hdc].
      * rewrite L.
        destruct Hcase as [[_ ->]|[_ (ch' & U & ->)]]; simpl in Hp.
        -- rewrite lookup_remove_entry_same in Hp by assumption. discriminate.
        -- rewrite (@lookup_update_entry_same es c ch ch' L) in Hp.
           apply (IH ch ch' p' st); auto.
           apply lookup_entry_Some in L. eauto.
      * destruct Hcase as [[_ ->]|[_ (ch' & U & ->)]]; simpl in Hp.
        -- now rewrite lookup_remove_entry_other in Hp.
        -- now rewrite lookup_update_entry_other in Hp.
Qed.

(** A removal creates no directory and changes the permissions of none. *)
Lemma unlink_reverse_dir (q : path) :
  forall n n' p st r w es', wf n -> unlink n q = inr n' ->
    resolve n' p = inr (Dir st r w es') ->
    exists es, resolve n p = inr (Dir st r w es).
Proof.
  induction q as [|c q IH]; intros n n' p st r w es' Hwf H Hp.
  - discriminate.
  - destruct (@unlink_inr _ _ _ H)
      as (c0 & q' & sn & rn & wn & esn & ch & Hq & Hn & L & Hcase).
    inversion Hq; subst c0 q' n. clear Hq.
    inversion Hwf as [|? ? ? ? Hnd Hch]; subst.
    destruct p as [|d p'].
    + simpl.
      destruct Hcase as [[_ ->]|[_ (ch' & _ & ->)]];
        simpl in Hp; inversion Hp; subst; eauto.
    + simpl. destruct (string_dec d c) as [->|Hdc].
      * rewrite L.
        destruct Hcase as [[_ ->]|[_ (ch' & U & ->)]]; simpl in Hp.
        -- rewrite lookup_remove_entry_same in Hp by assumption. discriminate.
        -- rewrite (@lookup_update_entry_same esn c ch ch' L) in Hp.
           apply (IH ch ch' p' st r w es'); auto.
           apply lookup_entry_Some in L. eauto.
      * destruct Hcase as [[_ ->]|[_ (ch' & U & ->)]]; simpl in Hp.
        -- rewrite lookup_remove_entry_other in Hp by assumption. eauto.
        -- rewrite lookup_update_entry_other in Hp by assumption. eauto.
Qed.

Lemma remove_all_reverse_file (l : list path) :
  forall n p st, wf n -> resolve (remove_all n l) p = inr (File st) ->
                 resolve n p = inr (File st).
Proof.
  induction l as [|q l IH]; intros n p st Hwf Hp; simpl in Hp; [assumption|].
  destruct (unlink n q) as [e|n'] eqn:U; [now apply IH|].
  apply (@unlink_reverse_file q n n' p st Hwf U).
  apply IH; [|assumption]. exact (@unlink_wf q n n' Hwf U).
Qed.

Lemma remove_all_reverse_readable (l : list path) :
  forall n p, wf n -> readable_dir (remove_all n l) p = true ->
              readable_dir n p = true.
Proof.
  induction l as [|q l IH]; intros n p Hwf Hp; simpl in Hp; [assumption|].
  destruct (unlink n q) as [e|n'] eqn:U; [now apply IH|].
  apply IH in Hp; [|exact (@unlink_wf q n n' Hwf U)].
  unfold readable_dir in *.
  destruct (resolve n' p) as [e|[sf|st r w es']] eqn:R; try discriminate.
  destruct (@unlink_reverse_dir q n n' p st r w es' Hwf U R) as [es Hes].
  now rewrite Hes.
Qed.

(** After removals discovery finds nothing it did not find before. *)
Lemma discovered_after_removal (l : list path) (n : node) (dir : path) :
  wf n -> incl (discovered (remove_all n l) dir) (discovered n dir).
Proof.
  intros Hwf [p c] Hin.
  pose proof (remove_all_wf l Hwf) as Hwf'.
  apply (@discovered_by_paths _ dir p c Hwf') in Hin.
  destruct Hin as (rel & file & st & Hp & Hs & Hrf & Hend & Hc).
  apply (@discovered_by_paths n dir p c Hwf).
  exists rel, file, st. split; [assumption|]. split.
  - intros k Hk. apply (@remove_all_reverse_readable l n _ Hwf). now apply Hs.
  - split; [|auto]. now apply (@remove_all_reverse_file l n p st Hwf).
Qed.

(** X15.  A second run, started on the tree a first run left and reading
    the same clock, removes nothing: on a well-formed tree it identifies
    only backups the first run had already identified (those it failed to
    remove), fails on each again, and leaves the tree as it found it. *)
Theorem second_run_removes_nothing (dir : path) (thr : Z) (w w2 : world) :
  wf (fs w) ->
  fs w2 = fs (snd (main dir thr false w)) ->
  clock w2 = clock w ->
  incl (old_paths (clock w2) thr (discovered (fs w2) dir))
       (old_paths (clock w) thr (discovered (fs w) dir))
  /\ (forall p, In p (old_paths (clock w2) thr (discovered (fs w2) dir)) ->
                exists e, unlink (fs w2) p = inl e)
  /\ fs (snd (main dir thr false w2)) = fs w2.
Proof.
  intros Hwf Hfs Hclk.
  assert (Hd : fst (get_backup_files dir w) = Ok (discovered (fs w) dir))
    by now rewrite get_backup_files_wf.
  rewrite (main_fs dir thr false w Hd) in Hfs.
  set (old1 := old_paths (clock w) thr (discovered (fs w) dir)) in *.
  assert (Hwf2 : wf (fs w2)) by (rewrite Hfs; now apply remove_all_wf).
  assert (Hincl : incl (old_paths (clock w2) thr (discovered (fs w2) dir)) old1).
  { intros p Hp. apply old_paths_In in Hp. destruct Hp as (c & Hin & Hold).
    apply old_paths_In. exists c. split; [|now rewrite <- Hclk].
    rewrite Hfs in Hin. exact (@discovered_after_removal old1 (fs w) dir Hwf _ Hin). }
  assert (Hfail : forall p,
             In p (old_paths (clock w2) thr (discovered (fs w2) dir)) ->
             exists e, unlink (fs w2) p = inl e).
  { intros p Hp. rewrite Hfs. apply remove_all_exhaustive; [assumption|].
    now apply Hincl. }
  split; [exact Hincl|]. split; [exact Hfail|].
  assert (Hd2 : fst (get_backup_files dir w2) = Ok (discovered (fs w2) dir))
    by now rewrite get_backup_files_wf.
  rewrite (main_fs dir thr false w2 Hd2).
  now destruct (@all_fail _ (fs w2) Hfail) as [H _].
Qed.

Lemma second_run_removes_nothing_witness :
  incl (old_paths (clock (snd (main ["srv"%string] 30 false sample_world))) 30
          (discovered (fs (snd (main ["srv"%string] 30 false sample_world)))
             ["srv"%string]))
       (old_paths (clock sample_world) 30
          (discovered (fs sample_world) ["srv"%string]))
  /\ (forall p,
        In p (old_paths (clock (snd (main ["srv"%string] 30 false sample_world))) 30
                (discovered (fs (snd (main ["srv"%string] 30 false sample_world)))
                   ["srv"%string])) ->
        exists e,
          unlink (fs (snd (main ["srv"%string] 30 false sample_world))) p = inl e)
  /\ fs (snd (main ["srv"%string] 30 false
                (snd (main ["srv"%string] 30 false sample_world))))
     = fs (snd (main ["srv"%string] 30 false sample_world)).
Proof.
  exact (@second_run_removes_nothing ["srv"%string] 30 sample_world
           (snd (main ["srv"%string] 30 false sample_world))
           wf_sample_fs eq_refl eq_refl).
Defined.
